(** * unbun: the Bun standalone-bundle extractor, embedded and verified

    A shallow embedding of [unbun.py].  Python [bytes] and [memoryview]
    values are lists of [Byte.byte], Python [int]s are [Z], a Python [str]
    is the list of its code points, an exception is a value of [exn], a
    generator is the finite trace of what it yields and how it stops. *)

From Stdlib Require Import ZArith List Lia Bool String Ascii.
From Stdlib Require Import Strings.Byte DecimalString DecimalZ.
From stdpp Require Import base decidable list gmap.

Import ListNotations.
Local Open Scope Z_scope.

(** ** Python values *)

Abbreviation bytes := (list byte).

(** A [str]: the sequence of its Unicode code points. *)
Abbreviation pystr := (list Z).

#[global] Instance byte_eq_decision : EqDecision byte := byte_eq_dec.

Definition byte_val (b : byte) : Z := Z.of_N (Byte.to_N b).

Definition len {A} (l : list A) : Z := Z.of_nat (length l).

(** [str] literals of the source, written as Rocq strings of ASCII. *)
Definition str_of (s : string) : pystr :=
  map (fun a => Z.of_N (N_of_ascii a)) (list_ascii_of_string s).

(** ** Exceptions and results *)

(** [ExtractionError(msg)] is the program's own exception; the others are
    the builtin exceptions its operations can raise. *)
Inductive exn : Type :=
| ExtractionError (msg : string)
| IndexError
| UnicodeDecodeError
| FileNotFoundError.

Inductive result (A : Type) : Type :=
| Ok (a : A)
| Raise (e : exn).
Arguments Ok {A} a.
Arguments Raise {A} e.

(** A statement that raises ends the block; [x ← r; k] is the sequencing. *)
#[global] Instance result_bind : MBind result :=
  fun A B (k : A -> result B) (r : result A) =>
    match r with
    | Ok a => k a
    | Raise e => Raise e
    end.

(** The spec's names for the messages the program raises. *)
Definition TrailerNotFound : exn :=
  ExtractionError "Module graph trailer not found".
Definition OffsetsOutOfRange : exn :=
  ExtractionError "Module graph offsets out of range".
Definition InvalidByteCount : exn :=
  ExtractionError "Invalid module graph byte count".
Definition StartBeforeFile : exn :=
  ExtractionError "Module graph start before file".
Definition TableOutOfBounds : exn :=
  ExtractionError "Modules table exceeds module graph bounds".
Definition PointerOutOfRange : exn :=
  ExtractionError "Module graph pointer out of range".
Definition NoEntriesFound : exn :=
  ExtractionError "No JavaScript bundles found in module graph".

(** ** Sequence operations of Python *)

(** How a slice bound is brought into [0, n]: a negative bound counts from
    the end, and both are clamped. *)
Definition clamp_index (n i : Z) : Z :=
  if i <? 0 then Z.max (i + n) 0 else Z.min i n.

(** [l[lo:hi]]. *)
Definition py_slice {A} (l : list A) (lo hi : Z) : list A :=
  let n := len l in
  let lo' := clamp_index n lo in
  let hi' := clamp_index n hi in
  firstn (Z.to_nat (hi' - lo')) (skipn (Z.to_nat lo') l).

(** [l[i]] on a bytes-like object: the byte as an int, [IndexError] out of
    range. *)
Definition py_getitem (l : bytes) (i : Z) : result Z :=
  let n := len l in
  let i' := if i <? 0 then i + n else i in
  if (i' <? 0) || (n <=? i') then Raise IndexError
  else match nth_error l (Z.to_nat i') with
       | Some b => Ok (byte_val b)
       | None => Raise IndexError
       end.

(** [s.endswith(suffix)] and [s.startswith(prefix)]. *)
Definition endswith {A} `{EqDecision A} (s suffix : list A) : bool :=
  bool_decide (suffix `suffix_of` s).

Definition startswith {A} `{EqDecision A} (s prefix : list A) : bool :=
  bool_decide (prefix `prefix_of` s).

(** [int.from_bytes(bs, "little")]. *)
Fixpoint from_bytes_little (bs : bytes) : Z :=
  match bs with
  | [] => 0
  | b :: rest => byte_val b + 256 * from_bytes_little rest
  end.

(** ** Constants of the format *)

(** [TRAILER = b"\n---- Bun! ----\n"]. *)
Definition TRAILER : bytes :=
  [x0a; x2d; x2d; x2d; x2d; x20; x42; x75; x6e; x21; x20;
   x2d; x2d; x2d; x2d; x0a].

Definition OFFSETS_STRUCT_SIZE : Z := 32.
Definition MODULE_STRUCT_SIZE : Z := 36.

(** ** Packed pointers *)

Definition decode_pointer (raw : Z) : Z * Z :=
  let offset := Z.land raw 0xFFFFFFFF in
  let length := Z.land (Z.shiftr raw 32) 0xFFFFFFFF in
  (offset, length).

(** The packing the format describes (low 32 bits the offset, high 32 bits
    the length); the program only ever unpacks. *)
Definition pack_pointer (p : Z * Z) : Z :=
  let '(offset, length) := p in
  Z.lor (Z.shiftl length 32) offset.

(** ** Slice resolution *)

(** The last two statements of [slice_from]:
    [if data.endswith(b"\x00"): data = data[:-1]]. *)
Definition drop_final_nul (data : bytes) : bytes :=
  if endswith data [x00] then py_slice data 0 (-1) else data.

(** [slice_from] over the two things it asks of [blob]: its length, and a
    copy of one of its ranges. *)
Definition slice_from_via (blob_len : Z) (blob_range : Z -> Z -> bytes)
    (pointer : Z * Z) : result bytes :=
  let '(offset, length) := pointer in
  if length =? 0 then Ok []
  else
    let end_ := offset + length in
    if (offset <? 0) || (end_ >? blob_len) then Raise PointerOutOfRange
    else
      let data := blob_range offset end_ in
      Ok (drop_final_nul data).

Definition slice_from (blob : bytes) (pointer : Z * Z) : result bytes :=
  slice_from_via (len blob) (py_slice blob) pointer.

(** ** Locating the module graph *)

(** [s.rfind(sub)]: the highest index at which [sub] starts in [s], or -1.
    [found] is the highest start seen left of position [i]. *)
Fixpoint rfind_scan (s sub : bytes) (i found : Z) : Z :=
  let found := if startswith s sub then i else found in
  match s with
  | [] => found
  | _ :: rest => rfind_scan rest sub (i + 1) found
  end.

Definition rfind (s sub : bytes) : Z := rfind_scan s sub 0 (-1).

Definition find_module_graph (buffer : bytes) : result (bytes * Z) :=
  let trailer_idx := rfind buffer TRAILER in
  if trailer_idx =? -1 then Raise TrailerNotFound
  else
    let offsets_start := trailer_idx - OFFSETS_STRUCT_SIZE in
    if offsets_start <? 0 then Raise OffsetsOutOfRange
    else
      let byte_count :=
        from_bytes_little (py_slice buffer offsets_start (offsets_start + 8)) in
      if (byte_count <=? 0) || (byte_count >? len buffer)
      then Raise InvalidByteCount
      else
        let module_graph_start := offsets_start - byte_count in
        if module_graph_start <? 0 then Raise StartBeforeFile
        else
          let graph := py_slice buffer module_graph_start offsets_start in
          let modules_raw :=
            from_bytes_little
              (py_slice buffer (offsets_start + 8) (offsets_start + 16)) in
          Ok (graph, modules_raw).

(** ** Decoding text *)

(** The [errors] argument of [bytes.decode]. *)
Inductive error_handler : Type := Strict | Replace.

Definition REPLACEMENT_CHARACTER : Z := 0xFFFD.

Definition is_continuation (c : Z) : bool := (0x80 <=? c) && (c <=? 0xBF).

(** The range the second byte of a sequence must lie in, by lead byte: it
    excludes overlong forms, surrogates and code points above U+10FFFF. *)
Definition second_byte_ok (lead c : Z) : bool :=
  if lead =? 0xE0 then (0xA0 <=? c) && (c <=? 0xBF)
  else if lead =? 0xED then (0x80 <=? c) && (c <=? 0x9F)
  else if lead =? 0xF0 then (0x90 <=? c) && (c <=? 0xBF)
  else if lead =? 0xF4 then (0x80 <=? c) && (c <=? 0x8F)
  else is_continuation c.

Definition payload (c : Z) : Z := Z.land c 0x3F.

(** One decoded code point in front of the rest. *)
Definition emit (c : Z) (rest : result pystr) : result pystr :=
  s ← rest; Ok (c :: s).

(** A malformed sequence: [strict] raises, [replace] puts U+FFFD for it and
    goes on behind it. *)
Definition malformed (errors : error_handler) (rest : result pystr)
    : result pystr :=
  match errors with
  | Strict => Raise UnicodeDecodeError
  | Replace => emit REPLACEMENT_CHARACTER rest
  end.

(** [bs.decode("utf-8", errors)].  A malformed sequence is the longest
    prefix of a valid sequence (at least one byte), as CPython delimits
    it. *)
Fixpoint utf8_decode (errors : error_handler) (bs : bytes) : result pystr :=
  match bs with
  | [] => Ok []
  | b0 :: r0 =>
    let c0 := byte_val b0 in
    if c0 <? 0x80 then emit c0 (utf8_decode errors r0)
    else if c0 <? 0xC2 then malformed errors (utf8_decode errors r0)
    else if c0 <? 0xE0 then
      match r0 with
      | [] => malformed errors (Ok [])
      | b1 :: r1 =>
        let c1 := byte_val b1 in
        if is_continuation c1
        then emit (Z.lor (Z.shiftl (Z.land c0 0x1F) 6) (payload c1))
                  (utf8_decode errors r1)
        else malformed errors (utf8_decode errors r0)
      end
    else if c0 <? 0xF0 then
      match r0 with
      | [] => malformed errors (Ok [])
      | b1 :: r1 =>
        let c1 := byte_val b1 in
        if second_byte_ok c0 c1 then
          match r1 with
          | [] => malformed errors (Ok [])
          | b2 :: r2 =>
            let c2 := byte_val b2 in
            if is_continuation c2
            then emit (Z.lor (Z.shiftl (Z.land c0 0x0F) 12)
                        (Z.lor (Z.shiftl (payload c1) 6) (payload c2)))
                      (utf8_decode errors r2)
            else malformed errors (utf8_decode errors r1)
          end
        else malformed errors (utf8_decode errors r0)
      end
    else if c0 <? 0xF5 then
      match r0 with
      | [] => malformed errors (Ok [])
      | b1 :: r1 =>
        let c1 := byte_val b1 in
        if second_byte_ok c0 c1 then
          match r1 with
          | [] => malformed errors (Ok [])
          | b2 :: r2 =>
            let c2 := byte_val b2 in
            if is_continuation c2 then
              match r2 with
              | [] => malformed errors (Ok [])
              | b3 :: r3 =>
                let c3 := byte_val b3 in
                if is_continuation c3
                then emit (Z.lor (Z.shiftl (Z.land c0 0x07) 18)
                            (Z.lor (Z.shiftl (payload c1) 12)
                              (Z.lor (Z.shiftl (payload c2) 6) (payload c3))))
                          (utf8_decode errors r3)
                else malformed errors (utf8_decode errors r2)
              end
            else malformed errors (utf8_decode errors r1)
          end
        else malformed errors (utf8_decode errors r0)
      end
    else malformed errors (utf8_decode errors r0)
  end.

(** ** Enumerating the records *)

(** What [iter_modules] yields per record: the tuple
    [(name, contents, encoding, loader, module_format, side)]. *)
Record module_entry : Type := ModuleEntry {
  name : pystr;
  contents : bytes;
  encoding : Z;
  loader : Z;
  module_format : Z;
  side : Z
}.

(** A generator run to its end: the values it yields, in order, and
    whether it then returns or raises. *)
Inductive gen (A : Type) : Type :=
| Stop
| Yield (a : A) (rest : gen A)
| Throw (e : exn).
Arguments Stop {A}.
Arguments Yield {A} a rest.
Arguments Throw {A} e.

(** [range(n)]. *)
Definition range (n : Z) : list Z := map Z.of_nat (seq 0 (Z.to_nat n)).

(** The [(offset, length)] pair of 32-bit little-endian fields at [at_]. *)
Definition read_pointer (table : bytes) (at_ : Z) : Z * Z :=
  (from_bytes_little (py_slice table at_ (at_ + 4)),
   from_bytes_little (py_slice table (at_ + 4) (at_ + 8))).

(** The body of the loop of [iter_modules], up to its [yield]. *)
Definition read_record (graph table : bytes) (idx : Z) : result module_entry :=
  let base := idx * MODULE_STRUCT_SIZE in
  let name_ptr := read_pointer table base in
  let contents_ptr := read_pointer table (base + 8) in
  let sourcemap_ptr := read_pointer table (base + 16) in
  let bytecode_ptr := read_pointer table (base + 24) in
  encoding ← py_getitem table (base + 32);
  loader ← py_getitem table (base + 33);
  module_format ← py_getitem table (base + 34);
  side ← py_getitem table (base + 35);
  name_bytes ← slice_from graph name_ptr;
  name ← utf8_decode Replace name_bytes;
  contents ← slice_from graph contents_ptr;
  Ok (ModuleEntry name contents encoding loader module_format side).

Fixpoint for_records (graph table : bytes) (idxs : list Z) : gen module_entry :=
  match idxs with
  | [] => Stop
  | idx :: rest =>
    match read_record graph table idx with
    | Raise e => Throw e
    | Ok entry => Yield entry (for_records graph table rest)
    end
  end.

Definition iter_modules (graph : bytes) (modules_raw : Z) : gen module_entry :=
  let '(modules_offset, modules_length) := decode_pointer modules_raw in
  if (modules_length =? 0)
     || negb (modules_length mod MODULE_STRUCT_SIZE =? 0)
  then Stop
  else if modules_offset + modules_length >? len graph
  then Throw TableOutOfBounds
  else
    let count := modules_length / MODULE_STRUCT_SIZE in
    let table := py_slice graph modules_offset (modules_offset + modules_length) in
    for_records graph table (range count).

(** ** The extraction policy *)

Definition JS_EXTENSIONS : list pystr :=
  map str_of [".js"; ".jsx"; ".ts"; ".tsx"; ".mjs"; ".cjs"]%string.

Definition should_extract (name : pystr) (encoding loader : Z) : bool :=
  if encoding =? 0 then false
  else if existsb (endswith name) JS_EXTENSIONS then true
  else existsb (Z.eqb loader) [1; 2].

(** ** String operations used for the output names *)

(** [s.replace(old, new)] for a non-empty [old]: the occurrences are taken
    left to right and do not overlap.  [skip] counts the characters of a
    replaced occurrence still to pass over. *)
Fixpoint replace_scan (old new s : pystr) (skip : nat) : pystr :=
  match s with
  | [] => []
  | c :: rest =>
    match skip with
    | S k => replace_scan old new rest k
    | O =>
      if startswith s old
      then new ++ replace_scan old new rest (length old - 1)
      else c :: replace_scan old new rest 0
    end
  end.

(** [s.replace(old, new)]; an empty [old] matches before every character
    and at the end. *)
Definition str_replace (s old new : pystr) : pystr :=
  match old with
  | [] => new ++ flat_map (fun c => c :: new) s
  | _ :: _ => replace_scan old new s 0
  end.

Definition is_in (chars : pystr) (c : Z) : bool := existsb (Z.eqb c) chars.

Fixpoint lstrip (s chars : pystr) : pystr :=
  match s with
  | [] => []
  | c :: rest => if is_in chars c then lstrip rest chars else s
  end.

(** [s.strip(chars)]. *)
Definition strip (s chars : pystr) : pystr :=
  rev (lstrip (rev (lstrip s chars)) chars).

(** [str(n)], as an f-string formats an [int]. *)
Definition str_of_int (n : Z) : pystr :=
  str_of (DecimalString.NilZero.string_of_int (Z.to_int n)).

(** [a or b] on strings. *)
Definition str_or (a b : pystr) : pystr :=
  match a with
  | [] => b
  | _ :: _ => a
  end.

(** The [while candidate in written_names] loop.  Each turn tries a name
    not tried before, so it leaves the loop within [size written_names]
    turns; [fuel] is that bound. *)
Fixpoint dedup_loop (fuel : nat) (written_names : gset pystr)
    (base candidate : pystr) (counter : Z) : pystr :=
  if bool_decide (candidate ∈ written_names) then
    match fuel with
    | O => candidate
    | S fuel =>
      dedup_loop fuel written_names base
        (base ++ str_of "_" ++ str_of_int counter) (counter + 1)
    end
  else candidate.

Definition unique_candidate (written_names : gset pystr) (base : pystr) : pystr :=
  dedup_loop (size written_names) written_names base base 1.

(** ** The extraction *)

(** What [extract] prints, line by line. *)
Inductive line (Path : Type) : Type :=
| Saved (dest : Path) (nbytes : Z)
| Prettified
| Warning (exc : exn).
Arguments Saved {Path} dest nbytes.
Arguments Prettified {Path}.
Arguments Warning {Path} exc.

(** The part of the world [extract] acts on: the directories and files of
    the file system, and what has been printed. *)
Record world (Path : Type) `{Countable Path} : Type := World {
  directories : gset Path;
  files : gmap Path bytes;
  stdout : list (line Path)
}.
Arguments World {Path _ _} directories files stdout.
Arguments directories {Path _ _} w.
Arguments files {Path _ _} w.
Arguments stdout {Path _ _} w.

Section Extract.

(** [pathlib.Path], with [output / name] and the directories
    [mkdir(parents=True)] makes sure of: the path itself and its
    ancestors. *)
Context {Path : Type} `{Countable Path}.
Variable joinpath : Path -> pystr -> Path.
Variable with_parents : Path -> gset Path.

(** [os.sep]. *)
Variable os_sep : pystr.

(** [run_prettier]: it runs an external program on the file, which may
    change the world in any way, and raises when that program is missing
    or fails. *)
Variable run_prettier : Path -> world Path -> result unit * world Path.

Definition read_bytes (binary : Path) (w : world Path) : result bytes :=
  match files w !! binary with
  | Some buf => Ok buf
  | None => Raise FileNotFoundError
  end.

Definition mkdir (output : Path) (w : world Path) : world Path :=
  World (with_parents output ∪ directories w) (files w) (stdout w).

Definition write_bytes (dest : Path) (data : bytes) (w : world Path)
    : world Path :=
  World (directories w) (<[dest := data]> (files w)) (stdout w).

Definition print (l : line Path) (w : world Path) : world Path :=
  World (directories w) (files w) (stdout w ++ [l]).

(** The first loop of [extract]: it runs the generator, keeping the
    entries to write, and stops at the exception the generator raises. *)
Fixpoint collect_bundles (modules : gen module_entry)
    (bundles : list (pystr * bytes)) : result (list (pystr * bytes)) :=
  match modules with
  | Stop => Ok bundles
  | Throw e => Raise e
  | Yield entry rest =>
    if should_extract (name entry) (encoding entry) (loader entry)
    then collect_bundles rest (bundles ++ [(name entry, contents entry)])
    else collect_bundles rest bundles
  end.

(** The second loop of [extract]. *)
Fixpoint write_bundles (output : Path) (prettify : bool)
    (bundles : list (pystr * bytes)) (written_names : gset pystr)
    (w : world Path) : result unit * world Path :=
  match bundles with
  | [] => (Ok tt, w)
  | (name, contents) :: rest =>
    let rel_name := str_replace name (str_of "/$bunfs/root/") [] in
    let base :=
      str_or (str_replace
                (str_replace (strip rel_name (str_of "/"))
                   (str_of "/") (str_of "_"))
                os_sep (str_of "_"))
             (str_of "bundle") in
    let candidate := unique_candidate written_names base in
    let written_names := {[candidate]} ∪ written_names in
    let dest := joinpath output (candidate ++ str_of ".js") in
    let w := write_bytes dest contents w in
    let w := print (Saved dest (len contents)) w in
    if prettify then
      match run_prettier dest w with
      | (Ok _, w) =>
        write_bundles output prettify rest written_names (print Prettified w)
      | (Raise (ExtractionError msg), w) =>
        write_bundles output prettify rest written_names
          (print (Warning (ExtractionError msg)) w)
      | (Raise e, w) => (Raise e, w)
      end
    else write_bundles output prettify rest written_names w
  end.

Definition extract (binary output : Path) (prettify : bool) (w : world Path)
    : result unit * world Path :=
  match read_bytes binary w with
  | Raise e => (Raise e, w)
  | Ok buf =>
    match find_module_graph buf with
    | Raise e => (Raise e, w)
    | Ok (graph, modules_raw) =>
      match collect_bundles (iter_modules graph modules_raw) [] with
      | Raise e => (Raise e, w)
      | Ok bundles =>
        match bundles with
        | [] => (Raise NoEntriesFound, w)
        | _ :: _ =>
          let w := mkdir output w in
          write_bundles output prettify bundles ∅ w
        end
      end
    end
  end.

End Extract.

(** ** Notions used in the statements *)

Fixpoint leading_nuls (bs : bytes) : nat :=
  match bs with
  | [] => O
  | b :: rest => if Byte.eqb b x00 then S (leading_nuls rest) else O
  end.

(** How many NUL bytes a byte sequence ends in. *)
Definition final_nuls (bs : bytes) : nat := leading_nuls (rev bs).

(** [name] ends with one of the source-file suffixes. *)
Definition has_js_extension (name : pystr) : Prop :=
  exists ext pre, In ext JS_EXTENSIONS /\ name = pre ++ ext.

(** [sub] occurs in [s] starting at index [i]. *)
Definition occurs_at (s sub : bytes) (i : Z) : Prop :=
  exists pre post, s = pre ++ sub ++ post /\ len pre = i.

(** [i] is the index of the last occurrence of [sub] in [s]. *)
Definition last_occurrence (s sub : bytes) (i : Z) : Prop :=
  occurs_at s sub i /\ forall j, occurs_at s sub j -> j <= i.

(** What a generator yields before it stops, and how it stops. *)
Fixpoint gen_values {A} (g : gen A) : list A :=
  match g with
  | Stop | Throw _ => []
  | Yield a rest => a :: gen_values rest
  end.

Fixpoint gen_end {A} (g : gen A) : result unit :=
  match g with
  | Stop => Ok tt
  | Throw e => Raise e
  | Yield _ rest => gen_end rest
  end.

(** A pointer read from a table (both halves are unsigned) that
    [slice_from] resolves against [graph]: its length is 0 or its range
    ends inside the graph. *)
Definition in_bounds (graph : bytes) (pointer : Z * Z) : Prop :=
  snd pointer = 0 \/ fst pointer + snd pointer <= len graph.

(** A computation that returns rather than raises. *)
Definition succeeds {A} (r : result A) : Prop := exists a, r = Ok a.

(** The parse of [buf] fails with [e]: in the locator, or in the
    enumeration of the records, after any number of them were yielded. *)
Definition parse_error (buf : bytes) (e : exn) : Prop :=
  find_module_graph buf = Raise e \/
  exists graph modules_raw,
    find_module_graph buf = Ok (graph, modules_raw) /\
    gen_end (iter_modules graph modules_raw) = Raise e.

(** The name the [while] loop holds after [j] turns: [base], then
    [base_1], [base_2], ... *)
Definition nth_candidate (base : pystr) (j : Z) : pystr :=
  if j =? 0 then base else base ++ str_of "_" ++ str_of_int j.

(** ** Files laid out as the format describes, for the examples *)

Definition byte_of (n : Z) : byte :=
  default x00 (Byte.of_N (Z.to_N (n mod 256))).

(** [n.to_bytes(width, "little")]. *)
Fixpoint to_bytes_little (width : nat) (n : Z) : bytes :=
  match width with
  | O => []
  | S w => byte_of n :: to_bytes_little w (n / 256)
  end.

Definition ascii_bytes (s : string) : bytes := list_byte_of_string s.

(** A 36-byte record; the source map and bytecode pointers are left 0. *)
Definition record_bytes (name_ptr contents_ptr : Z * Z) (encoding loader : Z)
    : bytes :=
  to_bytes_little 4 (fst name_ptr) ++ to_bytes_little 4 (snd name_ptr) ++
  to_bytes_little 4 (fst contents_ptr) ++ to_bytes_little 4 (snd contents_ptr) ++
  repeat x00 16 ++ [byte_of encoding; byte_of loader; x00; x00].

(** The 32-byte offsets header; its last 16 bytes are left 0. *)
Definition offsets_header (byte_count modules_raw : Z) : bytes :=
  to_bytes_little 8 byte_count ++ to_bytes_little 8 modules_raw ++ repeat x00 16.

(** A whole file: leading bytes, the graph, its header, the marker. *)
Definition bundle_file (lead graph : bytes) (modules_raw : Z) : bytes :=
  lead ++ graph ++ offsets_header (len graph) modules_raw ++ TRAILER.

(** The graph of the end-to-end scenario: the name [app.js], the contents
    [console.log(1)], and one record pointing at them. *)
Definition app_graph : bytes :=
  ascii_bytes "app.js" ++ ascii_bytes "console.log(1)" ++
  record_bytes (0, 6) (6, 14) 1 1.

Definition app_file : bytes :=
  bundle_file (ascii_bytes "#!ELF") app_graph (pack_pointer (20, 36)).

(** A graph of two records: the first as in [app_graph], the second with a
    name pointer that runs past the graph's end. *)
Definition broken_graph : bytes :=
  ascii_bytes "app.js" ++ ascii_bytes "console.log(1)" ++
  record_bytes (0, 6) (6, 14) 1 1 ++ record_bytes (90, 9) (6, 14) 1 1.

Definition broken_file : bytes :=
  bundle_file [] broken_graph (pack_pointer (20, 72)).

(** A graph whose only record names two bytes that are not UTF-8. *)
Definition odd_name_graph : bytes :=
  [xff; xfe] ++ ascii_bytes "1;" ++ record_bytes (0, 2) (2, 2) 1 1.

(** A world for the examples: paths are their text, [/] joins them, no
    ancestors are tracked and the formatter leaves the file as it is. *)
Definition text_join (output name : pystr) : pystr :=
  output ++ str_of "/" ++ name.

Definition only_itself (p : pystr) : gset pystr := {[ p ]}.

Definition prettier_idle (dest : pystr) (w : world pystr)
    : result unit * world pystr := (Ok tt, w).

Definition extract_text : pystr -> pystr -> bool -> world pystr
                          -> result unit * world pystr :=
  extract text_join only_itself (str_of "/") prettier_idle.

Definition world_with (binary : pystr) (buf : bytes) : world pystr :=
  World ∅ {[ binary := buf ]} [].

(** ** Further notions used in the statements *)

(** [part] is a contiguous range of [whole]. *)
Definition sub_range {A} (part whole : list A) : Prop :=
  exists pre post, whole = pre ++ part ++ post.

(** An entry made of the graph's own bytes: its name decodes some range of
    the graph, its contents are a range of the graph, and its four
    metadata fields are byte values. *)
Definition entry_inside (graph : bytes) (entry : module_entry) : Prop :=
  (exists name_bytes,
      sub_range name_bytes graph /\
      utf8_decode Replace name_bytes = Ok (name entry)) /\
  sub_range (contents entry) graph /\
  0 <= encoding entry < 256 /\ 0 <= loader entry < 256 /\
  0 <= module_format entry < 256 /\ 0 <= side entry < 256.

(** The name [extract] derives from an entry's name before it makes it
    unique: the expression bound to [base] in its second loop. *)
Definition bundle_base (os_sep name : pystr) : pystr :=
  let rel_name := str_replace name (str_of "/$bunfs/root/") [] in
  str_or (str_replace
            (str_replace (strip rel_name (str_of "/"))
               (str_of "/") (str_of "_"))
            os_sep (str_of "_"))
         (str_of "bundle").


(** The entries the first loop keeps, as [(name, contents)] pairs. *)
Definition eligible (entries : list module_entry) : list (pystr * bytes) :=
  map (fun entry => (name entry, contents entry))
      (filter (fun entry =>
                 should_extract (name entry) (encoding entry) (loader entry) = true)
              entries).


(** The graph of [app_graph] with its record marked as binary (encoding
    0), and a file around it. *)
Definition opaque_graph : bytes :=
  ascii_bytes "app.js" ++ ascii_bytes "console.log(1)" ++
  record_bytes (0, 6) (6, 14) 0 1.

Definition opaque_file : bytes :=
  bundle_file [] opaque_graph (pack_pointer (20, 36)).

(** ** The command line *)

(** What [parse_args] hands to [main]. *)
Record arguments (Path : Type) : Type := Namespace {
  arg_binary : Path;
  arg_output : Path;
  arg_prettier : bool;
  arg_prettier_bin : pystr
}.
Arguments Namespace {Path} arg_binary arg_output arg_prettier arg_prettier_bin.
Arguments arg_binary {Path} a.
Arguments arg_output {Path} a.
Arguments arg_prettier {Path} a.
Arguments arg_prettier_bin {Path} a.

(** How [main] ends: it returns a status, [parser.error] exits with one,
    or an exception it does not catch leaves it. *)
Inductive ending : Type :=
| Returns (status : Z)
| Exits (status : Z)
| Propagates (e : exn).

(** What [main] writes to [sys.stderr]. *)
Inductive stderr_line : Type :=
| ParserError
| ErrorLine (message : string).

Section Main.

Context {Path : Type} `{Countable Path}.
Variable joinpath : Path -> pystr -> Path.
Variable with_parents : Path -> gset Path.
Variable os_sep : pystr.

(** [run_prettier] by the executable it is configured to call. *)
Variable run_prettier_with : pystr -> Path -> world Path -> result unit * world Path.

(** [main] from the parsed arguments on. *)
Definition main (args : arguments Path) (w : world Path)
    : ending * world Path * list stderr_line :=
  match files w !! arg_binary args with
  | None => (Exits 2, w, [ParserError])
  | Some _ =>
    match extract joinpath with_parents os_sep
            (run_prettier_with (arg_prettier_bin args))
            (arg_binary args) (arg_output args) (arg_prettier args) w with
    | (Ok _, w') => (Returns 0, w', [])
    | (Raise (ExtractionError msg), w') =>
      (Returns 1, w', [ErrorLine (String.append "error: " msg)])
    | (Raise e, w') => (Propagates e, w', [])
    end
  end.

End Main.

(** * Properties *)

(** ** Sequences *)

Lemma len_nonneg {A} (l : list A) : 0 <= len l.
Proof. unfold len. lia. Qed.

Lemma len_app {A} (l k : list A) : len (l ++ k) = len l + len k.
Proof. unfold len. rewrite length_app. lia. Qed.

Lemma clamp_index_in_range (n i : Z) : 0 <= i <= n -> clamp_index n i = i.
Proof.
  intros Hi. unfold clamp_index.
  destruct (Z.ltb_spec i 0); lia.
Qed.

(** Within bounds a slice is the plain sub-list. *)
Lemma py_slice_in_range {A} (l : list A) (lo hi : Z) :
  0 <= lo <= hi -> hi <= len l ->
  py_slice l lo hi = firstn (Z.to_nat (hi - lo)) (skipn (Z.to_nat lo) l).
Proof.
  intros Hlo Hhi. unfold py_slice.
  rewrite !clamp_index_in_range by lia. reflexivity.
Qed.

Lemma py_slice_len {A} (l : list A) (lo hi : Z) :
  0 <= lo <= hi -> hi <= len l -> len (py_slice l lo hi) = hi - lo.
Proof.
  intros Hlo Hhi. rewrite py_slice_in_range by assumption.
  unfold len in *. rewrite length_firstn, length_skipn. lia.
Qed.

(** The slice between two cuts of a list. *)
Lemma py_slice_middle {A} (pre mid post : list A) :
  py_slice (pre ++ mid ++ post) (len pre) (len pre + len mid) = mid.
Proof.
  rewrite py_slice_in_range.
  - unfold len. rewrite Nat2Z.id.
    replace (Z.to_nat _) with (length mid) by lia.
    rewrite drop_app_length. apply take_app_length.
  - pose proof (len_nonneg pre). pose proof (len_nonneg mid). lia.
  - rewrite !len_app. pose proof (len_nonneg post). lia.
Qed.

(** [data[:-1]] drops the last element. *)
Lemma py_slice_drop_last {A} (pre : list A) (x : A) :
  py_slice (pre ++ [x]) 0 (-1) = pre.
Proof.
  assert (Hlo : clamp_index (len (pre ++ [x])) 0 = 0).
  { apply clamp_index_in_range. pose proof (len_nonneg (pre ++ [x])). lia. }
  assert (Hhi : clamp_index (len (pre ++ [x])) (-1) = len pre).
  { unfold clamp_index. rewrite len_app. change (len [x]) with 1.
    pose proof (len_nonneg pre). change (-1 <? 0) with true. cbv iota. lia. }
  unfold py_slice. rewrite Hlo, Hhi. simpl drop.
  replace (Z.to_nat _) with (length pre) by (unfold len; lia).
  apply take_app_length.
Qed.

Lemma endswith_true {A} `{EqDecision A} (s suffix : list A) :
  endswith s suffix = true <-> exists pre, s = pre ++ suffix.
Proof. unfold endswith. rewrite bool_decide_eq_true. reflexivity. Qed.

Lemma endswith_false {A} `{EqDecision A} (s suffix : list A) :
  endswith s suffix = false <-> ~ exists pre, s = pre ++ suffix.
Proof. unfold endswith. rewrite bool_decide_eq_false. reflexivity. Qed.

Lemma startswith_true {A} `{EqDecision A} (s prefix : list A) :
  startswith s prefix = true <-> exists post, s = prefix ++ post.
Proof. unfold startswith. rewrite bool_decide_eq_true. reflexivity. Qed.

(** ** Constants *)

Example TRAILER_text :
  TRAILER = [x0a] ++ ascii_bytes "---- Bun! ----" ++ [x0a] /\ len TRAILER = 16.
Proof. split; reflexivity. Qed.

(** ** Packed pointers *)

Lemma testbit_above (a k n : Z) :
  0 <= a < 2 ^ k -> k <= n -> Z.testbit a n = false.
Proof.
  intros [Ha Hk] Hn.
  destruct (Z.eq_dec a 0) as [-> | Hne]; [apply Z.bits_0 |].
  apply Z.bits_above_log2; [assumption |].
  assert (Z.log2 a < k); [| lia].
  apply Z.log2_lt_pow2; lia.
Qed.

Lemma mask32 : 0xFFFFFFFF = Z.ones 32.
Proof. reflexivity. Qed.

Lemma decode_pointer_range (raw : Z) :
  let '(offset, length) := decode_pointer raw in
  0 <= offset < 2 ^ 32 /\ 0 <= length < 2 ^ 32.
Proof.
  unfold decode_pointer. rewrite mask32, !Z.land_ones by lia.
  split; apply Z.mod_pos_bound; lia.
Qed.

(** C7. Splitting a packed pointer is a bijection between the 64-bit raw
    values and the pairs of 32-bit values: unpacking [(length << 32) |
    offset] gives back [(offset, length)], and packing what a 64-bit raw
    value unpacks to gives back the raw value. *)
Theorem decode_pointer_bijection :
  (forall offset length : Z,
      0 <= offset < 2 ^ 32 -> 0 <= length < 2 ^ 32 ->
      0 <= pack_pointer (offset, length) < 2 ^ 64 /\
      decode_pointer (pack_pointer (offset, length)) = (offset, length)) /\
  (forall raw : Z,
      0 <= raw < 2 ^ 64 ->
      pack_pointer (decode_pointer raw) = raw).
Proof.
  split.
  - intros offset length Ho Hl. unfold decode_pointer, pack_pointer.
    assert (Hsum : Z.lor (Z.shiftl length 32) offset = length * 2 ^ 32 + offset).
    { rewrite <- Z.shiftl_mul_pow2 by lia.
      rewrite <- Z.lxor_lor, <- Z.add_nocarry_lxor; [reflexivity | | ];
        apply Z.bits_inj'; intros n Hn; rewrite Z.land_spec, Z.bits_0;
        (destruct (Z.lt_ge_cases n 32);
         [ rewrite Z.shiftl_spec_low by lia; reflexivity
         | rewrite (testbit_above offset 32 n) by lia; apply andb_false_r ]). }
    rewrite Hsum. split; [nia |].
    rewrite mask32, !Z.land_ones, Z.shiftr_div_pow2 by lia.
    f_equal.
    + rewrite Z.add_comm, Z.mod_add by lia. apply Z.mod_small; lia.
    + rewrite Z.div_add_l by lia. rewrite (Z.div_small offset) by lia.
      rewrite Z.add_0_r. apply Z.mod_small; lia.
  - intros raw Hraw. unfold decode_pointer, pack_pointer.
    apply Z.bits_inj'; intros n Hn.
    rewrite Z.lor_spec, mask32, !Z.land_spec.
    destruct (Z.lt_ge_cases n 32).
    + rewrite Z.shiftl_spec_low by lia.
      rewrite Z.ones_spec_low by lia. simpl. apply andb_true_r.
    + rewrite Z.shiftl_spec by lia.
      rewrite Z.land_spec, Z.shiftr_spec by lia.
      replace (n - 32 + 32) with n by lia.
      rewrite (Z.ones_spec_high 32 n) by lia.
      rewrite andb_false_r, orb_false_r.
      destruct (Z.lt_ge_cases n 64).
      * rewrite Z.ones_spec_low by lia. apply andb_true_r.
      * rewrite (testbit_above raw 64 n) by lia. reflexivity.
Qed.

(** At a pair of 32-bit values and at a 64-bit raw value. *)
Lemma decode_pointer_bijection_witness :
  decode_pointer (pack_pointer (7, 36)) = (7, 36) /\
  pack_pointer (decode_pointer 0x0000002400000007) = 0x0000002400000007.
Proof.
  destruct decode_pointer_bijection as [Hpack Hraw]. split.
  - apply (Hpack 7 36); lia.
  - apply (Hraw 0x0000002400000007); lia.
Defined.

(** ** Slice resolution *)

(** What [slice_from] does with a pointer of positive length, whatever the
    blob's ranges hold. *)
Lemma slice_from_via_positive (blob_len : Z) (blob_range : Z -> Z -> bytes)
    (offset length : Z) :
  0 <= offset -> 0 < length ->
  slice_from_via blob_len blob_range (offset, length) =
  if offset + length <=? blob_len
  then Ok (drop_final_nul (blob_range offset (offset + length)))
  else Raise PointerOutOfRange.
Proof.
  intros Ho Hl. unfold slice_from_via.
  destruct (Z.eqb_spec length 0); [lia |].
  destruct (Z.ltb_spec offset 0); [lia |]. simpl.
  rewrite Z.gtb_ltb.
  destruct (Z.ltb_spec blob_len (offset + length)),
           (Z.leb_spec (offset + length) blob_len); try lia; reflexivity.
Qed.

(** C10. A pointer of length 0 resolves to the empty byte sequence for
    every region and every offset, also an offset beyond the region: the
    bounds are not looked at, nor is the region. *)
Theorem slice_from_zero_length :
  forall (blob : bytes) (offset : Z),
    slice_from blob (offset, 0) = Ok [] /\
    slice_from blob (len blob + 1 + Z.abs offset, 0) = Ok [] /\
    forall (blob_len : Z) (blob_range : Z -> Z -> bytes),
      slice_from_via blob_len blob_range (offset, 0) = Ok [].
Proof.
  intros blob offset. repeat split; reflexivity.
Qed.

(** C1. For a pointer of positive length into a region, resolution
    succeeds exactly when [offset + length <= len region]; the bound is
    inclusive, and one past it fails with [PointerOutOfRange].  The check
    comes before any access to the region's bytes: out of range the
    outcome is the error whatever the region's ranges would hold, and in
    range the only range asked for is [offset, offset + length), which
    lies inside the region. *)
Theorem slice_from_bounds :
  forall (blob : bytes) (offset length : Z),
    0 <= offset -> 0 < length ->
    ((exists data, slice_from blob (offset, length) = Ok data) <->
     offset + length <= len blob) /\
    (offset + length = len blob ->
     exists data, slice_from blob (offset, length) = Ok data) /\
    (offset + length = len blob + 1 ->
     slice_from blob (offset, length) = Raise PointerOutOfRange) /\
    (len blob < offset + length ->
     forall blob_range : Z -> Z -> bytes,
       slice_from_via (len blob) blob_range (offset, length) =
       Raise PointerOutOfRange) /\
    (offset + length <= len blob ->
     forall blob_range : Z -> Z -> bytes,
       slice_from_via (len blob) blob_range (offset, length) =
       Ok (drop_final_nul (blob_range offset (offset + length)))).
Proof.
  intros blob offset length Ho Hl.
  assert (Hvia := fun r => slice_from_via_positive (len blob) r offset length Ho Hl).
  unfold slice_from.
  repeat split.
  - intros [data Hd]. rewrite Hvia in Hd.
    destruct (Z.leb_spec (offset + length) (len blob)); [assumption | discriminate].
  - intros Hin. rewrite Hvia.
    destruct (Z.leb_spec (offset + length) (len blob)); [eauto | lia].
  - intros Heq. rewrite Hvia.
    destruct (Z.leb_spec (offset + length) (len blob)); [eauto | lia].
  - intros Heq. rewrite Hvia.
    destruct (Z.leb_spec (offset + length) (len blob)); [lia | reflexivity].
  - intros Hout blob_range. rewrite Hvia.
    destruct (Z.leb_spec (offset + length) (len blob)); [lia | reflexivity].
  - intros Hin blob_range. rewrite Hvia.
    destruct (Z.leb_spec (offset + length) (len blob)); [reflexivity | lia].
Qed.

(** On a region of five bytes: the pointer (2, 3) ends at the region's end
    and resolves, the pointer (2, 4) ends one past it and fails. *)
Lemma slice_from_bounds_witness :
  slice_from [x61; x62; x63; x64; x65] (2, 3) = Ok [x63; x64; x65] /\
  slice_from [x61; x62; x63; x64; x65] (2, 4) = Raise PointerOutOfRange.
Proof.
  split.
  - destruct (slice_from_bounds [x61; x62; x63; x64; x65] 2 3)
      as (_ & _ & _ & _ & Hin); [lia | lia |].
    apply (Hin ltac:(vm_compute; discriminate) (py_slice [x61; x62; x63; x64; x65])).
  - destruct (slice_from_bounds [x61; x62; x63; x64; x65] 2 4)
      as (_ & _ & Hone & _); [lia | lia |].
    apply Hone. reflexivity.
Defined.

(** ** Trailing NUL *)

Lemma final_nuls_snoc (pre : bytes) (b : byte) :
  final_nuls (pre ++ [b]) = if Byte.eqb b x00 then S (final_nuls pre) else O.
Proof. unfold final_nuls. rewrite rev_app_distr. reflexivity. Qed.

Lemma drop_final_nul_snoc (pre : bytes) :
  drop_final_nul (pre ++ [x00]) = pre.
Proof.
  unfold drop_final_nul.
  replace (endswith (pre ++ [x00]) [x00]) with true
    by (symmetry; apply endswith_true; eauto).
  apply py_slice_drop_last.
Qed.

Lemma drop_final_nul_other (data : bytes) :
  ~ (exists pre, data = pre ++ [x00]) -> drop_final_nul data = data.
Proof.
  intros Hno. unfold drop_final_nul.
  apply endswith_false in Hno. rewrite Hno. reflexivity.
Qed.

Lemma final_nuls_zero (data : bytes) :
  ~ (exists pre, data = pre ++ [x00]) -> final_nuls data = O.
Proof.
  intros Hno. destruct data as [| b rest] using rev_ind; [reflexivity |].
  rewrite final_nuls_snoc. destruct (Byte.eqb b x00) eqn:Hb; [| reflexivity].
  apply Byte.byte_dec_bl in Hb. subst b. exfalso. apply Hno. eauto.
Qed.

Lemma final_nuls_drop (data : bytes) :
  final_nuls (drop_final_nul data) = Nat.pred (final_nuls data).
Proof.
  destruct (decide ([x00] `suffix_of` data)) as [[pre ->] | Hno].
  - rewrite drop_final_nul_snoc, final_nuls_snoc. reflexivity.
  - rewrite drop_final_nul_other, final_nuls_zero by assumption. reflexivity.
Qed.

(** C5. The bytes a pointer of positive length resolves to are the range
    it names with one trailing NUL dropped when the range ends in NUL, and
    no more than one: a range ending in two NULs gives a result ending in
    one, a range ending in one NUL gives a result ending in none, and a
    range not ending in NUL is returned as it is. *)
Theorem slice_from_drops_one_nul :
  forall (blob : bytes) (offset length : Z),
    0 <= offset -> 0 < length -> offset + length <= len blob ->
    let data := py_slice blob offset (offset + length) in
    exists result,
      slice_from blob (offset, length) = Ok result /\
      len data = length /\
      (forall pre, data = pre ++ [x00] -> result = pre) /\
      (forall pre, data = pre ++ [x00; x00] -> result = pre ++ [x00]) /\
      (~ (exists pre, data = pre ++ [x00]) -> result = data) /\
      final_nuls result = Nat.pred (final_nuls data) /\
      (final_nuls data = 2%nat -> final_nuls result = 1%nat) /\
      (final_nuls data = 1%nat -> final_nuls result = 0%nat) /\
      (final_nuls data = 0%nat -> result = data).
Proof.
  intros blob offset length Ho Hl Hin data.
  exists (drop_final_nul data).
  assert (Hpred := final_nuls_drop data).
  repeat split.
  - unfold slice_from. rewrite slice_from_via_positive by assumption.
    destruct (Z.leb_spec (offset + length) (len blob)); [reflexivity | lia].
  - unfold data. rewrite py_slice_len by lia. lia.
  - intros pre ->. apply drop_final_nul_snoc.
  - intros pre ->. change [x00; x00] with ([x00] ++ [x00]).
    rewrite app_assoc. apply drop_final_nul_snoc.
  - apply drop_final_nul_other.
  - assumption.
  - intros H2. rewrite Hpred, H2. reflexivity.
  - intros H1. rewrite Hpred, H1. reflexivity.
  - intros H0. apply drop_final_nul_other. intros [pre Hpre].
    rewrite Hpre, final_nuls_snoc in H0. discriminate.
Qed.

(** The three cases on a region holding ["ab\000\000c"]. *)
Lemma slice_from_drops_one_nul_witness :
  slice_from [x61; x62; x00; x00; x63] (0, 4) = Ok [x61; x62; x00] /\
  slice_from [x61; x62; x00; x00; x63] (0, 3) = Ok [x61; x62] /\
  slice_from [x61; x62; x00; x00; x63] (0, 5) = Ok [x61; x62; x00; x00; x63].
Proof.
  split; [| split].
  - destruct (slice_from_drops_one_nul [x61; x62; x00; x00; x63] 0 4)
      as (result & -> & _ & _ & Htwo & _); [lia | lia | vm_compute; discriminate |].
    f_equal. apply (Htwo [x61; x62]). reflexivity.
  - destruct (slice_from_drops_one_nul [x61; x62; x00; x00; x63] 0 3)
      as (result & -> & _ & Hone & _); [lia | lia | vm_compute; discriminate |].
    f_equal. apply (Hone [x61; x62]). reflexivity.
  - destruct (slice_from_drops_one_nul [x61; x62; x00; x00; x63] 0 5)
      as (result & -> & _ & _ & _ & _ & _ & _ & _ & Hzero);
      [lia | lia | vm_compute; discriminate |].
    f_equal. apply Hzero. reflexivity.
Defined.

(** ** The extraction policy *)

Lemma has_js_extension_spec (name : pystr) :
  existsb (endswith name) JS_EXTENSIONS = true <-> has_js_extension name.
Proof.
  rewrite existsb_exists. unfold has_js_extension. split.
  - intros (ext & Hin & Hends). apply endswith_true in Hends as [pre ->]. eauto.
  - intros (ext & pre & Hin & ->). exists ext. split; [assumption |].
    apply endswith_true. eauto.
Qed.

Lemma loader_is_script (loader : Z) :
  existsb (Z.eqb loader) [1; 2] = true <-> loader = 1 \/ loader = 2.
Proof.
  simpl. rewrite !orb_true_iff, !Z.eqb_eq. intuition discriminate.
Qed.

(** C6. An entry is eligible exactly when its encoding is not 0 and its
    name ends with one of the source-file suffixes or its loader is 1 or
    2.  So an entry of encoding 0 is never eligible, an entry of non-zero
    encoding whose name ends in [.ts] is eligible for every loader, and
    an entry of non-zero encoding and loader 1 is eligible whatever its
    name. *)
Theorem should_extract_spec :
  forall (name : pystr) (encoding loader : Z),
    (should_extract name encoding loader = true <->
     encoding <> 0 /\ (has_js_extension name \/ loader = 1 \/ loader = 2)) /\
    (encoding = 0 -> should_extract name encoding loader = false) /\
    (encoding <> 0 ->
     forall stem, should_extract (stem ++ str_of ".ts") encoding loader = true) /\
    (encoding <> 0 -> ~ has_js_extension name ->
     should_extract name encoding 1 = true).
Proof.
  intros name encoding loader.
  assert (Hiff : forall n l,
             should_extract n encoding l = true <->
             encoding <> 0 /\ (has_js_extension n \/ l = 1 \/ l = 2)).
  { intros n l. unfold should_extract.
    destruct (Z.eqb_spec encoding 0) as [-> | Hne].
    - split; [discriminate | intros [Hne _]; contradiction].
    - destruct (existsb (endswith n) JS_EXTENSIONS) eqn:Hext.
      + apply has_js_extension_spec in Hext. tauto.
      + rewrite loader_is_script. split; [tauto |].
        intros [_ [Hjs | Hl]]; [| assumption].
        apply has_js_extension_spec in Hjs. congruence. }
  split; [apply Hiff |]. split; [| split].
  - intros ->. reflexivity.
  - intros Hne stem. apply Hiff. split; [assumption |]. left.
    exists (str_of ".ts"), stem. split; [| reflexivity].
    unfold JS_EXTENSIONS. simpl. tauto.
  - intros Hne _. apply Hiff. tauto.
Qed.

(** ** Searching from the right *)

Lemma occurs_at_nonneg (s sub : bytes) (i : Z) : occurs_at s sub i -> 0 <= i.
Proof. intros (pre & post & _ & <-). apply len_nonneg. Qed.

Lemma occurs_at_nil (sub : bytes) (i : Z) :
  occurs_at [] sub i <-> sub = [] /\ i = 0.
Proof.
  split.
  - intros (pre & post & Heq & <-). symmetry in Heq.
    apply app_eq_nil in Heq as [-> Heq]. apply app_eq_nil in Heq as [-> _].
    split; reflexivity.
  - intros [-> ->]. exists [], []. split; reflexivity.
Qed.

Lemma occurs_at_cons (b : byte) (rest sub : bytes) (i : Z) :
  occurs_at (b :: rest) sub i <->
  (i = 0 /\ startswith (b :: rest) sub = true) \/ occurs_at rest sub (i - 1).
Proof.
  split.
  - intros (pre & post & Heq & <-). destruct pre as [| b' pre].
    + left. split; [reflexivity |]. apply startswith_true. exists post. exact Heq.
    + right. injection Heq as -> ->. exists pre, post. split; [reflexivity |].
      unfold len. simpl length. lia.
  - intros [[-> Hstart] | (pre & post & -> & Hlen)].
    + apply startswith_true in Hstart as [post Hpost].
      exists [], post. split; [exact Hpost | reflexivity].
    + exists (b :: pre), post. split; [reflexivity |].
      unfold len in *. simpl length. lia.
Qed.

Lemma rfind_scan_spec (sub s : bytes) :
  forall i found,
    ((forall k, ~ occurs_at s sub k) /\ rfind_scan s sub i found = found) \/
    (exists k, last_occurrence s sub k /\ rfind_scan s sub i found = i + k).
Proof.
  induction s as [| b rest IH]; intros i found.
  - simpl. destruct (startswith [] sub) eqn:Hstart.
    + right. exists 0. apply startswith_true in Hstart as [post Hpost].
      symmetry in Hpost. apply app_eq_nil in Hpost as [-> _].
      split; [| lia]. split.
      * apply occurs_at_nil. split; reflexivity.
      * intros j Hj. apply occurs_at_nil in Hj as [_ ->]. lia.
    + left. split; [| reflexivity]. intros k Hk.
      apply occurs_at_nil in Hk as [-> _]. discriminate.
  - simpl rfind_scan.
    specialize (IH (i + 1) (if startswith (b :: rest) sub then i else found)).
    destruct IH as [[Hnone ->] | (k & [Hocc Hlast] & ->)].
    + destruct (startswith (b :: rest) sub) eqn:Hstart.
      * right. exists 0. split; [| lia]. split.
        -- apply occurs_at_cons. left. split; [reflexivity | assumption].
        -- intros j Hj. apply occurs_at_cons in Hj as [[-> _] | Hj]; [lia |].
           exfalso. exact (Hnone _ Hj).
      * left. split; [| reflexivity]. intros j Hj.
        apply occurs_at_cons in Hj as [[_ Hj] | Hj]; [congruence |].
        exact (Hnone _ Hj).
    + right. exists (k + 1). split; [| lia]. split.
      * apply occurs_at_cons. right. replace (k + 1 - 1) with k by lia. assumption.
      * intros j Hj. apply occurs_at_cons in Hj as [[-> _] | Hj].
        -- apply occurs_at_nonneg in Hocc. lia.
        -- apply Hlast in Hj. lia.
Qed.

(** [rfind] is -1 when there is no occurrence, and otherwise the index of
    the last one. *)
Lemma rfind_spec (s sub : bytes) :
  (rfind s sub = -1 /\ forall k, ~ occurs_at s sub k) \/
  (0 <= rfind s sub /\ last_occurrence s sub (rfind s sub)).
Proof.
  unfold rfind.
  destruct (rfind_scan_spec sub s 0 (-1)) as [[Hnone ->] | (k & Hlast & ->)].
  - left. split; [reflexivity | assumption].
  - right. simpl. split; [| assumption].
    destruct Hlast as [Hocc _]. exact (occurs_at_nonneg _ _ _ Hocc).
Qed.

Lemma rfind_absent (s sub : bytes) :
  rfind s sub = -1 <-> forall k, ~ occurs_at s sub k.
Proof.
  destruct (rfind_spec s sub) as [[Heq Hnone] | [Hpos [Hocc _]]].
  - tauto.
  - split; [lia |]. intros Hnone. exfalso. exact (Hnone _ Hocc).
Qed.

Lemma rfind_last (s sub : bytes) (i : Z) :
  last_occurrence s sub i -> rfind s sub = i.
Proof.
  intros [Hocc Hlast].
  destruct (rfind_spec s sub) as [[_ Hnone] | [_ [Hocc' Hlast']]].
  - exfalso. exact (Hnone _ Hocc).
  - apply Hlast in Hocc'. apply Hlast' in Hocc. lia.
Qed.

(** ** Little-endian integers *)

Lemma byte_val_range (b : byte) : 0 <= byte_val b < 256.
Proof. unfold byte_val. pose proof (Byte.to_N_bounded b). lia. Qed.

Lemma from_bytes_little_range (bs : bytes) :
  0 <= from_bytes_little bs < 256 ^ len bs.
Proof.
  induction bs as [| b rest IH].
  - simpl. change (len []) with 0. lia.
  - simpl from_bytes_little.
    replace (len (b :: rest)) with (Z.succ (len rest)) by (unfold len; simpl length; lia).
    rewrite Z.pow_succ_r by apply len_nonneg.
    pose proof (byte_val_range b). lia.
Qed.

(** ** Locating the module graph *)

Lemma occurs_at_bound (s sub : bytes) (i : Z) :
  occurs_at s sub i -> i + len sub <= len s.
Proof.
  intros (pre & post & -> & <-). rewrite !len_app.
  pose proof (len_nonneg post). lia.
Qed.

(** [find_module_graph] as a decision list over the trailer index and the
    byte count. *)
Lemma find_module_graph_cases (buffer : bytes) :
  let idx := rfind buffer TRAILER in
  let byte_count := from_bytes_little (py_slice buffer (idx - 32) (idx - 24)) in
  find_module_graph buffer =
  if idx =? -1 then Raise TrailerNotFound
  else if idx <? 32 then Raise OffsetsOutOfRange
  else if (byte_count =? 0) || (len buffer <? byte_count)
       then Raise InvalidByteCount
  else if idx - 32 <? byte_count then Raise StartBeforeFile
  else Ok (py_slice buffer (idx - 32 - byte_count) (idx - 32),
           from_bytes_little (py_slice buffer (idx - 24) (idx - 16))).
Proof.
  intros idx byte_count. unfold find_module_graph, OFFSETS_STRUCT_SIZE.
  fold idx. replace (idx - 32 + 8) with (idx - 24) by lia.
  replace (idx - 32 + 16) with (idx - 16) by lia. fold byte_count.
  pose proof (from_bytes_little_range (py_slice buffer (idx - 32) (idx - 24))) as [Hbc _].
  fold byte_count in Hbc.
  destruct (Z.eqb_spec idx (-1)); [reflexivity |].
  destruct (Z.ltb_spec (idx - 32) 0), (Z.ltb_spec idx 32); try lia; [reflexivity |].
  rewrite Z.gtb_ltb.
  destruct (Z.leb_spec byte_count 0), (Z.eqb_spec byte_count 0); try lia;
    [reflexivity |].
  simpl orb. destruct (Z.ltb_spec (len buffer) byte_count); [reflexivity |].
  destruct (Z.ltb_spec (idx - 32 - byte_count) 0),
           (Z.ltb_spec (idx - 32) byte_count); try lia; reflexivity.
Qed.

(** C2. The locator fails with [TrailerNotFound] exactly when the marker
    does not occur in the buffer.  When it occurs, the trailer index is
    the index of its last occurrence, and a successful result is the byte
    range [[trailer_index - 32 - byte_count, trailer_index - 32)] of the
    buffer, of [byte_count] bytes, together with the little-endian 64-bit
    value of the eight bytes at [trailer_index - 24]. *)
Theorem find_module_graph_locates :
  forall buffer : bytes,
    (find_module_graph buffer = Raise TrailerNotFound <->
     forall i, ~ occurs_at buffer TRAILER i) /\
    ((exists i, occurs_at buffer TRAILER i) ->
     last_occurrence buffer TRAILER (rfind buffer TRAILER)) /\
    (forall graph modules_raw,
        find_module_graph buffer = Ok (graph, modules_raw) ->
        exists trailer_index byte_count,
          last_occurrence buffer TRAILER trailer_index /\
          byte_count =
            from_bytes_little
              (py_slice buffer (trailer_index - 32) (trailer_index - 24)) /\
          0 <= trailer_index - 32 - byte_count /\
          graph =
            py_slice buffer (trailer_index - 32 - byte_count) (trailer_index - 32) /\
          len graph = byte_count /\
          modules_raw =
            from_bytes_little
              (py_slice buffer (trailer_index - 24) (trailer_index - 16)) /\
          len (py_slice buffer (trailer_index - 24) (trailer_index - 16)) = 8 /\
          0 <= modules_raw < 2 ^ 64).
Proof.
  intros buffer. pose proof (find_module_graph_cases buffer) as Hcases.
  cbv zeta in Hcases. rewrite Hcases. clear Hcases.
  set (idx := rfind buffer TRAILER).
  set (byte_count := from_bytes_little (py_slice buffer (idx - 32) (idx - 24))).
  pose proof (rfind_spec buffer TRAILER) as Hspec. fold idx in Hspec.
  split; [| split].
  - rewrite <- rfind_absent. fold idx.
    destruct (Z.eqb_spec idx (-1)); [tauto |].
    split; [| contradiction]. intros Hfail. exfalso.
    destruct (idx <? 32); [discriminate |].
    destruct ((byte_count =? 0) || (len buffer <? byte_count)); [discriminate |].
    destruct (idx - 32 <? byte_count); discriminate.
  - intros [i Hocc]. destruct Hspec as [[_ Hnone] | [_ Hlast]]; [| assumption].
    exfalso. exact (Hnone _ Hocc).
  - intros graph modules_raw Hok.
    destruct (Z.eqb_spec idx (-1)); [discriminate |].
    destruct (Z.ltb_spec idx 32); [discriminate |].
    destruct (Z.eqb_spec byte_count 0); [discriminate |].
    destruct (Z.ltb_spec (len buffer) byte_count); [discriminate |].
    destruct (Z.ltb_spec (idx - 32) byte_count); [discriminate |].
    injection Hok as <- <-.
    destruct Hspec as [[? _] | [_ Hlast]]; [contradiction |].
    pose proof (occurs_at_bound _ _ _ (proj1 Hlast)) as Hend.
    change (len TRAILER) with 16 in Hend.
    exists idx, byte_count.
    assert (Hraw : len (py_slice buffer (idx - 24) (idx - 16)) = 8)
      by (rewrite py_slice_len; lia).
    assert (Hbc : 0 <= byte_count) by apply from_bytes_little_range.
    split; [assumption |]. split; [reflexivity |]. split; [lia |].
    split; [reflexivity |]. split; [rewrite py_slice_len; lia |].
    split; [reflexivity |]. split; [assumption |].
    pose proof (from_bytes_little_range (py_slice buffer (idx - 24) (idx - 16))) as Hr.
    rewrite Hraw in Hr. change (256 ^ 8) with (2 ^ 64) in Hr. exact Hr.
Qed.

Lemma rfind_found (s sub : bytes) (i : Z) :
  rfind s sub = i -> 0 <= i -> last_occurrence s sub i.
Proof.
  intros <- Hpos. destruct (rfind_spec s sub) as [[Hneg _] | [_ Hlast]];
    [lia | assumption].
Qed.

(** C3. With the marker's last occurrence at [trailer_index]: below 32 the
    locator fails with [OffsetsOutOfRange]; from 32 on, [byte_count] is
    the little-endian unsigned 64-bit value of the eight bytes at
    [trailer_index - 32], the locator fails with [InvalidByteCount]
    exactly when [byte_count] is zero or greater than the buffer's length,
    and otherwise it fails with [StartBeforeFile] exactly when
    [trailer_index - 32 - byte_count] is negative. *)
Theorem find_module_graph_header_checks :
  forall (buffer : bytes) (trailer_index : Z),
    last_occurrence buffer TRAILER trailer_index ->
    (trailer_index < 32 ->
     find_module_graph buffer = Raise OffsetsOutOfRange) /\
    (32 <= trailer_index ->
     let header := py_slice buffer (trailer_index - 32) (trailer_index - 24) in
     let byte_count := from_bytes_little header in
     len header = 8 /\
     0 <= byte_count < 2 ^ 64 /\
     (find_module_graph buffer = Raise InvalidByteCount <->
      byte_count = 0 \/ len buffer < byte_count) /\
     (~ (byte_count = 0 \/ len buffer < byte_count) ->
      (find_module_graph buffer = Raise StartBeforeFile <->
       trailer_index - 32 - byte_count < 0))).
Proof.
  intros buffer trailer_index Hlast.
  pose proof (find_module_graph_cases buffer) as Hcases. cbv zeta in Hcases.
  rewrite (rfind_last _ _ _ Hlast) in Hcases. rewrite Hcases. clear Hcases.
  pose proof (occurs_at_nonneg _ _ _ (proj1 Hlast)) as Hpos.
  pose proof (occurs_at_bound _ _ _ (proj1 Hlast)) as Hend.
  change (len TRAILER) with 16 in Hend.
  destruct (Z.eqb_spec trailer_index (-1)); [lia |].
  split.
  - intros Hlow. destruct (Z.ltb_spec trailer_index 32); [reflexivity | lia].
  - intros Hhigh header byte_count.
    destruct (Z.ltb_spec trailer_index 32); [lia |].
    assert (Hlen : len header = 8) by (unfold header; rewrite py_slice_len; lia).
    assert (Hrange : 0 <= byte_count < 2 ^ 64).
    { pose proof (from_bytes_little_range header) as Hr. rewrite Hlen in Hr.
      exact Hr. }
    split; [assumption |]. split; [assumption |].
    fold header. fold byte_count.
    destruct (Z.eqb_spec byte_count 0) as [Hz | Hnz].
    { simpl orb. split; [tauto |]. intros Hn. exfalso. apply Hn. left. exact Hz. }
    destruct (Z.ltb_spec (len buffer) byte_count) as [Hbig | Hfits].
    { simpl orb. split; [tauto |]. intros Hn. exfalso. apply Hn. right. exact Hbig. }
    simpl orb.
    destruct (Z.ltb_spec (trailer_index - 32) byte_count) as [Hbefore | Hinside].
    + split.
      * split; [discriminate | lia].
      * intros _. split; [lia | reflexivity].
    + split.
      * split; [discriminate | lia].
      * intros _. split; [discriminate | lia].
Qed.

(** A header holding byte count 0 in front of the marker, a header holding
    byte count 10 with nothing in front of it, and the marker alone. *)
Lemma find_module_graph_header_checks_witness :
  find_module_graph (offsets_header 0 0 ++ TRAILER) = Raise InvalidByteCount /\
  find_module_graph (offsets_header 10 0 ++ TRAILER) = Raise StartBeforeFile /\
  find_module_graph TRAILER = Raise OffsetsOutOfRange.
Proof.
  split; [| split].
  - destruct (find_module_graph_header_checks (offsets_header 0 0 ++ TRAILER) 32)
      as [_ Hhigh]; [apply rfind_found; [vm_compute; reflexivity | lia] |].
    destruct (Hhigh ltac:(lia)) as (_ & _ & Hinvalid & _).
    apply Hinvalid. left. vm_compute. reflexivity.
  - destruct (find_module_graph_header_checks (offsets_header 10 0 ++ TRAILER) 32)
      as [_ Hhigh]; [apply rfind_found; [vm_compute; reflexivity | lia] |].
    destruct (Hhigh ltac:(lia)) as (_ & _ & _ & Hstart).
    apply Hstart; vm_compute; [intros [Heq | Hlt]; discriminate | reflexivity].
  - destruct (find_module_graph_header_checks TRAILER 0) as [Hlow _];
      [apply rfind_found; [vm_compute; reflexivity | lia] |].
    apply Hlow. lia.
Defined.

(** The marker occurring twice: the locator reads the header in front of
    the second occurrence, so the graph it returns is that of the second
    file. *)
Example find_module_graph_two_markers :
  rfind (broken_file ++ app_file) TRAILER = len broken_file + len app_file - 16 /\
  find_module_graph (broken_file ++ app_file) =
  Ok (app_graph, pack_pointer (20, 36)).
Proof. split; vm_compute; reflexivity. Qed.

(** ** Enumerating the records *)

(** C4. When the length half of the modules pointer is 0 or not a multiple
    of 36, [iter_modules] yields nothing and raises nothing, wherever the
    offset half points; only for a non-zero multiple of 36 is the table's
    end compared with the graph's length, and it then raises
    [TableOutOfBounds] at once when the end lies beyond it. *)
Theorem iter_modules_table_checks :
  forall (graph : bytes) (modules_raw : Z),
    let modules_offset := fst (decode_pointer modules_raw) in
    let modules_length := snd (decode_pointer modules_raw) in
    (modules_length = 0 \/ modules_length mod 36 <> 0 ->
     iter_modules graph modules_raw = Stop) /\
    (modules_length <> 0 -> modules_length mod 36 = 0 ->
     len graph < modules_offset + modules_length ->
     iter_modules graph modules_raw = Throw TableOutOfBounds) /\
    ((modules_length = 0 \/ modules_length mod 36 <> 0) ->
     len graph < modules_offset + modules_length ->
     iter_modules graph modules_raw = Stop).
Proof.
  intros graph modules_raw modules_offset modules_length.
  assert (Hempty : modules_length = 0 \/ modules_length mod 36 <> 0 ->
                   iter_modules graph modules_raw = Stop).
  { intros Hcase. unfold iter_modules, MODULE_STRUCT_SIZE.
    destruct (decode_pointer modules_raw) as [mo ml] eqn:Hptr.
    simpl in modules_offset, modules_length. fold modules_length.
    destruct (Z.eqb_spec modules_length 0); [reflexivity |].
    destruct (Z.eqb_spec (modules_length mod 36) 0); [| reflexivity].
    destruct Hcase; contradiction. }
  split; [exact Hempty |]. split; [| intros Hcase _; exact (Hempty Hcase)].
  intros Hnz Hmul Hout. unfold iter_modules, MODULE_STRUCT_SIZE.
  destruct (decode_pointer modules_raw) as [mo ml] eqn:Hptr.
  simpl in modules_offset, modules_length. fold modules_length modules_offset.
  destruct (Z.eqb_spec modules_length 0); [contradiction |].
  destruct (Z.eqb_spec (modules_length mod 36) 0); [| contradiction].
  simpl. rewrite Z.gtb_ltb.
  destruct (Z.ltb_spec (len graph) (modules_offset + modules_length));
    [reflexivity | lia].
Qed.

(** On a graph of four bytes: a table of length 35 at offset 1000 yields
    nothing, a table of length 36 at offset 0 is out of bounds. *)
Lemma iter_modules_table_checks_witness :
  iter_modules [x00; x00; x00; x00] (pack_pointer (1000, 35)) = Stop /\
  iter_modules [x00; x00; x00; x00] (pack_pointer (0, 36)) =
  Throw TableOutOfBounds.
Proof.
  split.
  - destruct (iter_modules_table_checks [x00; x00; x00; x00]
                (pack_pointer (1000, 35))) as (Hempty & _ & _).
    apply Hempty. right. vm_compute. discriminate.
  - destruct (iter_modules_table_checks [x00; x00; x00; x00]
                (pack_pointer (0, 36))) as (_ & Hout & _).
    apply Hout; vm_compute; [discriminate | reflexivity | reflexivity].
Defined.

(** ** Decoding text *)

Lemma emit_succeeds (c : Z) (rest : result pystr) :
  succeeds rest -> succeeds (emit c rest).
Proof. intros [s ->]. exists (c :: s). reflexivity. Qed.

Lemma malformed_replace_succeeds (rest : result pystr) :
  succeeds rest -> succeeds (malformed Replace rest).
Proof. apply emit_succeeds. Qed.

Lemma emit_ok_inv (c : Z) (rest : result pystr) (s : pystr) :
  emit c rest = Ok s -> exists s', rest = Ok s' /\ s = c :: s'.
Proof.
  destruct rest as [s' | e]; [| discriminate].
  intros [= <-]. eauto.
Qed.

Lemma emit_raise_inv (c : Z) (rest : result pystr) (e : exn) :
  emit c rest = Raise e -> rest = Raise e.
Proof. destruct rest as [s' | e']; [discriminate | intros [= <-]; reflexivity]. Qed.

(** The decoder is followed through its branches; [IH] covers every
    strictly shorter input. *)
Ltac utf8_branches :=
  repeat match goal with
         | |- context [if ?c then _ else _] => destruct c
         | |- context [match ?l with [] => _ | _ :: _ => _ end] => destruct l
         end.

(** With [errors="replace"] decoding returns for every input. *)
Lemma utf8_decode_replace_total (bs : bytes) :
  succeeds (utf8_decode Replace bs).
Proof.
  remember (length bs) as n eqn:Hn.
  revert bs Hn. induction n as [n IH] using lt_wf_ind. intros bs Hn.
  assert (Hrec : forall r, (length r < n)%nat -> succeeds (utf8_decode Replace r))
    by (intros r Hr; exact (IH _ Hr r eq_refl)).
  clear IH. destruct bs as [| b0 r0]; [exists []; reflexivity |].
  cbn [utf8_decode]. subst n. simpl length in Hrec.
  utf8_branches;
    repeat first
      [ apply emit_succeeds
      | apply malformed_replace_succeeds
      | (exists []; reflexivity)
      | apply Hrec; simpl; lia ].
Qed.

(** What strict decoding accepts, [errors="replace"] decodes to the same
    text. *)
Lemma utf8_decode_replace_agrees (bs : bytes) (s : pystr) :
  utf8_decode Strict bs = Ok s -> utf8_decode Replace bs = Ok s.
Proof.
  remember (length bs) as n eqn:Hn.
  revert bs s Hn. induction n as [n IH] using lt_wf_ind. intros bs s Hn.
  assert (Hrec : forall r t, (length r < n)%nat ->
                 utf8_decode Strict r = Ok t -> utf8_decode Replace r = Ok t)
    by (intros r t Hr; exact (IH _ Hr r t eq_refl)).
  clear IH. destruct bs as [| b0 r0]; [intros H; exact H |].
  cbn [utf8_decode]. subst n. simpl length in Hrec.
  utf8_branches; intros Hs;
    try discriminate Hs;
    apply emit_ok_inv in Hs as (s' & Hs & ->);
    (apply Hrec in Hs; [rewrite Hs; reflexivity | simpl; lia]).
Qed.

(** What strict decoding rejects, [errors="replace"] decodes to a text
    holding the replacement character. *)
Lemma utf8_decode_replace_marks (bs : bytes) (e : exn) :
  utf8_decode Strict bs = Raise e ->
  exists s, utf8_decode Replace bs = Ok s /\ In REPLACEMENT_CHARACTER s.
Proof.
  remember (length bs) as n eqn:Hn.
  revert bs e Hn. induction n as [n IH] using lt_wf_ind. intros bs e Hn.
  assert (Hrec : forall r, (length r < n)%nat ->
                 utf8_decode Strict r = Raise e ->
                 exists s, utf8_decode Replace r = Ok s /\ In REPLACEMENT_CHARACTER s)
    by (intros r Hr; exact (IH _ Hr r e eq_refl)).
  assert (Hmark : forall rest, succeeds rest ->
                  exists s, malformed Replace rest = Ok s /\ In REPLACEMENT_CHARACTER s).
  { intros rest [s' ->]. exists (REPLACEMENT_CHARACTER :: s').
    split; [reflexivity | left; reflexivity]. }
  clear IH. destruct bs as [| b0 r0]; [discriminate |].
  cbn [utf8_decode]. subst n. simpl length in Hrec.
  utf8_branches; intros Hs;
    first
      [ apply emit_raise_inv in Hs;
        (apply Hrec in Hs as (s' & Hs & Hin);
         [ rewrite Hs; eexists; split; [reflexivity | right; exact Hin]
         | simpl; lia ])
      | apply Hmark; first [ apply utf8_decode_replace_total
                           | exists []; reflexivity ] ].
Qed.

(** ** Records with pointers in bounds *)

Lemma py_getitem_in_range (l : bytes) (i : Z) :
  0 <= i < len l -> exists v, py_getitem l i = Ok v /\ 0 <= v < 256.
Proof.
  intros Hi. unfold py_getitem.
  destruct (Z.ltb_spec i 0); [lia |].
  destruct (Z.ltb_spec i 0); [lia |].
  destruct (Z.leb_spec (len l) i); [lia |]. simpl orb. cbv iota.
  destruct (nth_error l (Z.to_nat i)) as [b |] eqn:Hnth.
  - exists (byte_val b). split; [reflexivity | apply byte_val_range].
  - apply nth_error_None in Hnth. unfold len in *. lia.
Qed.

Lemma read_pointer_nonneg (table : bytes) (at_ : Z) :
  0 <= fst (read_pointer table at_) /\ 0 <= snd (read_pointer table at_).
Proof. split; apply from_bytes_little_range. Qed.

(** [slice_from] returns for a pointer in bounds. *)
Lemma slice_from_in_bounds (graph : bytes) (pointer : Z * Z) :
  0 <= fst pointer -> 0 <= snd pointer -> in_bounds graph pointer ->
  succeeds (slice_from graph pointer).
Proof.
  destruct pointer as [offset length]. unfold in_bounds. simpl fst. simpl snd.
  intros Ho Hl Hin.
  destruct (Z.eq_dec length 0) as [-> | Hnz]; [exists []; reflexivity |].
  unfold slice_from. rewrite slice_from_via_positive by lia.
  destruct (Z.leb_spec (offset + length) (len graph)); [| lia].
  eexists. reflexivity.
Qed.

(** And only for such a pointer. *)
Lemma slice_from_succeeds_in_bounds (graph : bytes) (pointer : Z * Z) :
  0 <= fst pointer -> 0 <= snd pointer ->
  succeeds (slice_from graph pointer) -> in_bounds graph pointer.
Proof.
  destruct pointer as [offset length]. unfold in_bounds. simpl fst. simpl snd.
  intros Ho Hl [data Hdata].
  destruct (Z.eq_dec length 0) as [-> | Hnz]; [left; reflexivity | right].
  unfold slice_from in Hdata. rewrite slice_from_via_positive in Hdata by lia.
  destruct (Z.leb_spec (offset + length) (len graph)); [assumption | discriminate].
Qed.

(** A record that lies inside the table and whose name and contents
    pointers are in bounds decodes to an entry; its name is what
    [errors="replace"] makes of the name bytes. *)
Lemma read_record_in_bounds (graph table : bytes) (idx : Z) :
  0 <= idx -> (idx + 1) * 36 <= len table ->
  in_bounds graph (read_pointer table (idx * 36)) ->
  in_bounds graph (read_pointer table (idx * 36 + 8)) ->
  exists entry name_bytes,
    read_record graph table idx = Ok entry /\
    slice_from graph (read_pointer table (idx * 36)) = Ok name_bytes /\
    utf8_decode Replace name_bytes = Ok (name entry) /\
    slice_from graph (read_pointer table (idx * 36 + 8)) = Ok (contents entry).
Proof.
  intros Hidx Hfits Hname Hcontents.
  unfold read_record, MODULE_STRUCT_SIZE.
  destruct (py_getitem_in_range table (idx * 36 + 32)) as (e & -> & _); [lia |].
  destruct (py_getitem_in_range table (idx * 36 + 33)) as (l & -> & _); [lia |].
  destruct (py_getitem_in_range table (idx * 36 + 34)) as (f & -> & _); [lia |].
  destruct (py_getitem_in_range table (idx * 36 + 35)) as (s & -> & _); [lia |].
  destruct (slice_from_in_bounds graph (read_pointer table (idx * 36)))
    as [name_bytes Hnb]; [apply read_pointer_nonneg .. | assumption |].
  destruct (slice_from_in_bounds graph (read_pointer table (idx * 36 + 8)))
    as [data Hdata]; [apply read_pointer_nonneg .. | assumption |].
  destruct (utf8_decode_replace_total name_bytes) as [text Htext].
  rewrite Hnb, Hdata. simpl. rewrite Htext. simpl.
  eexists. exists name_bytes. repeat split; assumption.
Qed.

Lemma range_spec (n idx : Z) : In idx (range n) <-> 0 <= idx < n.
Proof.
  unfold range. rewrite in_map_iff. split.
  - intros (k & <- & Hk). apply in_seq in Hk. lia.
  - intros Hidx. exists (Z.to_nat idx). split; [lia |]. apply in_seq. lia.
Qed.

Lemma range_len (n : Z) : 0 <= n -> len (range n) = n.
Proof. intros Hn. unfold range, len. rewrite length_map, length_seq. lia. Qed.

Lemma for_records_in_bounds (graph table : bytes) (idxs : list Z) :
  (forall idx, In idx idxs ->
     0 <= idx /\ (idx + 1) * 36 <= len table /\
     in_bounds graph (read_pointer table (idx * 36)) /\
     in_bounds graph (read_pointer table (idx * 36 + 8))) ->
  gen_end (for_records graph table idxs) = Ok tt /\
  len (gen_values (for_records graph table idxs)) = len idxs.
Proof.
  induction idxs as [| idx rest IH]; intros Hall; [split; reflexivity |].
  destruct (Hall idx (or_introl eq_refl)) as (Hidx & Hfits & Hname & Hcontents).
  destruct (read_record_in_bounds graph table idx Hidx Hfits Hname Hcontents)
    as (entry & _ & Hentry & _).
  simpl. rewrite Hentry. simpl.
  destruct IH as [Hend Hlen]; [intros i Hi; apply Hall; right; exact Hi |].
  split; [exact Hend |]. unfold len in *. simpl length. lia.
Qed.

(** C9. Decoding a name with [errors="replace"] returns for every byte
    sequence: it agrees with strict decoding where that accepts, and
    where that rejects the result holds the replacement character.  So a
    record inside the table whose name and contents pointers are in
    bounds always decodes to an entry, whatever its name bytes are, and a
    table of such records is enumerated to its end without an
    exception. *)
Theorem name_decoding_total :
  (forall name_bytes : bytes,
      exists name,
        utf8_decode Replace name_bytes = Ok name /\
        (forall text, utf8_decode Strict name_bytes = Ok text -> name = text) /\
        (forall e, utf8_decode Strict name_bytes = Raise e ->
                   In REPLACEMENT_CHARACTER name)) /\
  (forall (graph table : bytes) (idx : Z),
      0 <= idx -> (idx + 1) * 36 <= len table ->
      in_bounds graph (read_pointer table (idx * 36)) ->
      in_bounds graph (read_pointer table (idx * 36 + 8)) ->
      exists entry name_bytes,
        read_record graph table idx = Ok entry /\
        slice_from graph (read_pointer table (idx * 36)) = Ok name_bytes /\
        utf8_decode Replace name_bytes = Ok (name entry) /\
        slice_from graph (read_pointer table (idx * 36 + 8)) =
        Ok (contents entry)) /\
  (forall (graph : bytes) (modules_raw : Z),
      let modules_offset := fst (decode_pointer modules_raw) in
      let modules_length := snd (decode_pointer modules_raw) in
      let table :=
        py_slice graph modules_offset (modules_offset + modules_length) in
      modules_length mod 36 = 0 ->
      modules_offset + modules_length <= len graph ->
      (forall idx, 0 <= idx < modules_length / 36 ->
         in_bounds graph (read_pointer table (idx * 36)) /\
         in_bounds graph (read_pointer table (idx * 36 + 8))) ->
      gen_end (iter_modules graph modules_raw) = Ok tt /\
      len (gen_values (iter_modules graph modules_raw)) = modules_length / 36).
Proof.
  split; [| split].
  - intros name_bytes.
    destruct (utf8_decode_replace_total name_bytes) as [name Hname].
    exists name. split; [exact Hname |]. split.
    + intros text Hstrict. apply utf8_decode_replace_agrees in Hstrict. congruence.
    + intros e Hstrict.
      apply utf8_decode_replace_marks in Hstrict as (s & Hs & Hin). congruence.
  - exact read_record_in_bounds.
  - intros graph modules_raw modules_offset modules_length table Hmul Hfits Hptrs.
    pose proof (decode_pointer_range modules_raw) as Hrange.
    unfold iter_modules, MODULE_STRUCT_SIZE.
    destruct (decode_pointer modules_raw) as [mo ml] eqn:Hptr.
    simpl in modules_offset, modules_length.
    fold modules_offset modules_length. fold table.
    destruct Hrange as [Hmo Hml]. fold modules_offset in Hmo. fold modules_length in Hml.
    destruct (Z.eqb_spec modules_length 0) as [Hz | Hnz].
    { simpl. rewrite Hz. split; reflexivity. }
    destruct (Z.eqb_spec (modules_length mod 36) 0); [| contradiction]. simpl orb.
    cbv iota. rewrite Z.gtb_ltb.
    destruct (Z.ltb_spec (len graph) (modules_offset + modules_length)); [lia |].
    assert (Hcount : modules_length = 36 * (modules_length / 36))
      by (apply Z.div_exact; [lia | assumption]).
    assert (Htable : len table = modules_length)
      by (unfold table; rewrite py_slice_len; lia).
    destruct (for_records_in_bounds graph table (range (modules_length / 36)))
      as [Hend Hlen].
    { intros idx Hidx. apply range_spec in Hidx.
      destruct (Hptrs idx Hidx) as [Hname Hcontents].
      repeat split; try assumption; lia. }
    split; [exact Hend |]. rewrite Hlen. apply range_len. lia.
Qed.

(** A record whose name bytes are [0xFF 0xFE], not UTF-8: it decodes to an
    entry whose name is two replacement characters. *)
Lemma name_decoding_total_witness :
  gen_end (iter_modules odd_name_graph (pack_pointer (4, 36))) = Ok tt /\
  len (gen_values (iter_modules odd_name_graph (pack_pointer (4, 36)))) = 1 /\
  map name (gen_values (iter_modules odd_name_graph (pack_pointer (4, 36)))) =
  [[REPLACEMENT_CHARACTER; REPLACEMENT_CHARACTER]].
Proof.
  destruct name_decoding_total as (_ & _ & Hgen).
  destruct (Hgen odd_name_graph (pack_pointer (4, 36))) as [Hend Hlen].
  - vm_compute. reflexivity.
  - vm_compute. discriminate.
  - intros idx Hidx. assert (idx = 0) as -> by (change (0 <= idx < 1) in Hidx; lia).
    split; right; vm_compute; discriminate.
  - split; [exact Hend |]. split; [exact Hlen |]. vm_compute. reflexivity.
Defined.

(** ** The extraction *)

(** The first loop ends in the exception the generator ends in, whatever
    was collected before. *)
Lemma collect_bundles_raise (modules : gen module_entry)
    (bundles : list (pystr * bytes)) (e : exn) :
  gen_end modules = Raise e -> collect_bundles modules bundles = Raise e.
Proof.
  revert bundles. induction modules as [| entry rest IH | e']; intros bundles.
  - discriminate.
  - simpl. intros Hend.
    destruct (should_extract (name entry) (encoding entry) (loader entry));
      apply IH; exact Hend.
  - simpl. intros [= ->]. reflexivity.
Qed.

Section ExtractProperties.

Context {Path : Type} `{Countable Path}.
Variable joinpath : Path -> pystr -> Path.
Variable with_parents : Path -> gset Path.
Variable os_sep : pystr.
Variable run_prettier : Path -> world Path -> result unit * world Path.

(** An [ExtractionError] never leaves the second loop: the one
    [run_prettier] may raise is caught and printed. *)
Lemma write_bundles_no_extraction_error (output : Path) (prettify : bool)
    (bundles : list (pystr * bytes)) :
  forall (written_names : gset pystr) (w w' : world Path) (msg : string),
    write_bundles joinpath os_sep run_prettier output prettify bundles
      written_names w <> (Raise (ExtractionError msg), w').
Proof.
  induction bundles as [| [name contents] rest IH]; intros written w w' msg.
  - simpl. discriminate.
  - simpl. destruct prettify; [| apply IH].
    match goal with
    | |- context [run_prettier ?d ?v] => destruct (run_prettier d v) as [[u | e] w1]
    end; [apply IH |].
    destruct e; [apply IH | discriminate ..].
Qed.

(** C8. A failure of the parse, in the locator or at any record of the
    table, makes [extract] raise that error and leave the world as it
    was: no directory made, no file written, nothing printed, whatever
    entries were decoded before the failing record.  And whenever
    [extract] raises an [ExtractionError], the world is as it was. *)
Theorem extract_aborts_without_output :
  forall (binary output : Path) (prettify : bool) (w : world Path)
         (buf : bytes) (e : exn),
    files w !! binary = Some buf ->
    parse_error buf e ->
    extract joinpath with_parents os_sep run_prettier binary output prettify w
    = (Raise e, w) /\
    forall msg w',
      extract joinpath with_parents os_sep run_prettier binary output prettify w
      = (Raise (ExtractionError msg), w') -> w' = w.
Proof.
  intros binary output prettify w buf e Hread Hparse.
  unfold extract, read_bytes. rewrite Hread. split.
  - destruct Hparse as [-> | (graph & modules_raw & -> & Hend)]; [reflexivity |].
    rewrite (collect_bundles_raise _ _ _ Hend). reflexivity.
  - intros msg w'. destruct (find_module_graph buf) as [[graph modules_raw] | e'].
    + destruct (collect_bundles (iter_modules graph modules_raw) [])
        as [[| bundle bundles] | e''].
      * intros [= _ <-]. reflexivity.
      * intros Hwrite. exfalso.
        exact (write_bundles_no_extraction_error _ _ _ _ _ _ _ Hwrite).
      * intros [= _ <-]. reflexivity.
    + intros [= _ <-]. reflexivity.
Qed.

End ExtractProperties.

(** A file of two records, the first eligible and in bounds, the second
    with a name pointer out of range: the first is decoded, the
    extraction raises [PointerOutOfRange] and the world is unchanged.  A
    file whose byte count exceeds its length: [InvalidByteCount], and the
    world is unchanged. *)
Lemma extract_aborts_without_output_witness :
  (len (gen_values (iter_modules broken_graph (pack_pointer (20, 72)))) = 1 /\
   extract_text (str_of "bin") (str_of "out") true
     (world_with (str_of "bin") broken_file)
   = (Raise PointerOutOfRange, world_with (str_of "bin") broken_file)) /\
  extract_text (str_of "bin") (str_of "out") true
    (world_with (str_of "bin") (offsets_header 1000 0 ++ TRAILER))
  = (Raise InvalidByteCount,
     world_with (str_of "bin") (offsets_header 1000 0 ++ TRAILER)).
Proof.
  split; [split; [vm_compute; reflexivity |] |].
  - apply (extract_aborts_without_output text_join only_itself (str_of "/")
             prettier_idle (str_of "bin") (str_of "out") true
             (world_with (str_of "bin") broken_file) broken_file
             PointerOutOfRange).
    + apply lookup_singleton_eq.
    + right. exists broken_graph, (pack_pointer (20, 72)).
      split; vm_compute; reflexivity.
  - apply (extract_aborts_without_output text_join only_itself (str_of "/")
             prettier_idle (str_of "bin") (str_of "out") true
             (world_with (str_of "bin") (offsets_header 1000 0 ++ TRAILER))
             (offsets_header 1000 0 ++ TRAILER) InvalidByteCount).
    + apply lookup_singleton_eq.
    + left. vm_compute. reflexivity.
Defined.

(** The end-to-end scenario: the file holding [app.js] decodes to that one
    entry, and extracting it writes the contents to one file. *)
Example extract_app_file :
  (exists graph modules_raw,
     find_module_graph app_file = Ok (graph, modules_raw) /\
     iter_modules graph modules_raw =
     Yield (ModuleEntry (str_of "app.js") (ascii_bytes "console.log(1)") 1 1 0 0)
           Stop) /\
  let '(outcome, w) :=
    extract_text (str_of "bin") (str_of "out") false
      (world_with (str_of "bin") app_file) in
  outcome = Ok tt /\
  files w !! str_of "out/app.js.js" = Some (ascii_bytes "console.log(1)") /\
  stdout w = [Saved (str_of "out/app.js.js") 14].
Proof.
  split.
  - exists app_graph, (pack_pointer (20, 36)). split; vm_compute; reflexivity.
  - vm_compute. repeat split.
Qed.

(** ** The loop that picks an unused name *)

Lemma str_of_inj (s t : string) : str_of s = str_of t -> s = t.
Proof.
  unfold str_of. intros Heq.
  rewrite <- (string_of_list_ascii_of_string s), <- (string_of_list_ascii_of_string t).
  f_equal. revert Heq.
  generalize (list_ascii_of_string s) (list_ascii_of_string t).
  induction l as [| a l IH]; intros [| b k]; try discriminate; [reflexivity |].
  simpl. intros [= Hab Hrest]. f_equal; [| apply IH; exact Hrest].
  apply N2Z.inj in Hab.
  rewrite <- (ascii_N_embedding a), <- (ascii_N_embedding b). congruence.
Qed.

Lemma to_int_proper (n : Z) :
  Z.to_int n <> Decimal.Pos Decimal.Nil /\ Z.to_int n <> Decimal.Neg Decimal.Nil.
Proof.
  destruct n as [| p | p]; simpl; split; try discriminate;
    intros [= Hnil]; exact (DecimalPos.Unsigned.to_uint_nonnil p Hnil).
Qed.

Lemma str_of_int_inj (m n : Z) : str_of_int m = str_of_int n -> m = n.
Proof.
  unfold str_of_int. intros Heq. apply str_of_inj in Heq.
  apply (f_equal NilZero.int_of_string) in Heq.
  destruct (to_int_proper m) as [Hm1 Hm2], (to_int_proper n) as [Hn1 Hn2].
  rewrite !NilZero.isi in Heq by assumption.
  injection Heq as Heq. rewrite <- (DecimalZ.of_to m), <- (DecimalZ.of_to n).
  congruence.
Qed.

Lemma nth_candidate_inj (base : pystr) (i j : Z) :
  nth_candidate base i = nth_candidate base j -> i = j.
Proof.
  unfold nth_candidate.
  destruct (Z.eqb_spec i 0) as [-> | Hi], (Z.eqb_spec j 0) as [-> | Hj];
    intros Heq.
  - reflexivity.
  - apply (f_equal (@length Z)) in Heq. rewrite !length_app in Heq.
    simpl in Heq. lia.
  - apply (f_equal (@length Z)) in Heq. rewrite !length_app in Heq.
    simpl in Heq. lia.
  - apply app_inv_head in Heq. apply app_inv_head in Heq.
    apply str_of_int_inj. exact Heq.
Qed.

(** Names already taken, one per turn of the loop, cannot outnumber the
    set they are taken from. *)
Lemma tried_candidates_bound (written_names : gset pystr) (base : pystr) (j : nat) :
  (forall i, (i < j)%nat -> nth_candidate base (Z.of_nat i) ∈ written_names) ->
  (j <= size written_names)%nat.
Proof.
  intros Htried.
  set (l := map (fun i => nth_candidate base (Z.of_nat i)) (seq 0 j)).
  assert (Hnodup : NoDup l).
  { apply NoDup_fmap_2_strong; [| apply NoDup_seq].
    intros a b _ _ Heq. apply nth_candidate_inj in Heq. lia. }
  assert (Hsub : (list_to_set l : gset pystr) ⊆ written_names).
  { intros x Hx. apply elem_of_list_to_set in Hx.
    apply list_elem_of_In, in_map_iff in Hx as (i & <- & Hi).
    apply in_seq in Hi. apply Htried. lia. }
  apply subseteq_size in Hsub. rewrite size_list_to_set in Hsub by assumption.
  unfold l in Hsub. rewrite length_map, length_seq in Hsub. exact Hsub.
Qed.



(** * Further properties *)

(** ** Packed pointers, for every integer *)

(** Both halves of a decoded pointer are unsigned 32-bit values, whatever
    integer is decoded (also a negative one, or one wider than 64 bits):
    the offset is the value modulo [2^32], the length the next 32 bits, and
    bits from 64 on are ignored. *)
Theorem decode_pointer_halves :
  forall raw : Z,
    0 <= fst (decode_pointer raw) < 2 ^ 32 /\
    0 <= snd (decode_pointer raw) < 2 ^ 32 /\
    decode_pointer raw = (raw mod 2 ^ 32, (raw / 2 ^ 32) mod 2 ^ 32) /\
    decode_pointer (raw mod 2 ^ 64) = decode_pointer raw.
Proof.
  intros raw.
  assert (Harith : forall r, decode_pointer r = (r mod 2 ^ 32, (r / 2 ^ 32) mod 2 ^ 32)).
  { intros r. unfold decode_pointer.
    rewrite mask32, !Z.land_ones, Z.shiftr_div_pow2 by lia. reflexivity. }
  rewrite !Harith. simpl fst. simpl snd.
  split; [apply Z.mod_pos_bound; lia |].
  split; [apply Z.mod_pos_bound; lia |].
  split; [reflexivity |].
  change (2 ^ 64) with (2 ^ 32 * 2 ^ 32).
  rewrite Z.rem_mul_r by lia.
  set (lo := raw mod 2 ^ 32). set (hi := (raw / 2 ^ 32) mod 2 ^ 32).
  assert (Hlo : 0 <= lo < 2 ^ 32) by (apply Z.mod_pos_bound; lia).
  assert (Hhi : 0 <= hi < 2 ^ 32) by (apply Z.mod_pos_bound; lia).
  replace (lo + 2 ^ 32 * hi) with (lo + hi * 2 ^ 32) by lia.
  f_equal.
  - rewrite Z.mod_add by lia. apply Z.mod_small. exact Hlo.
  - rewrite Z.div_add by lia. rewrite (Z.div_small lo) by exact Hlo.
    apply Z.mod_small. exact Hhi.
Qed.

(** ** What slice resolution hands out *)

Lemma py_slice_sub_range {A} (l : list A) (lo hi : Z) :
  sub_range (py_slice l lo hi) l.
Proof.
  unfold py_slice.
  set (m := Z.to_nat (clamp_index (len l) lo)).
  set (n := Z.to_nat (clamp_index (len l) hi - clamp_index (len l) lo)).
  exists (take m l), (drop n (drop m l)).
  rewrite (take_drop n (drop m l)), take_drop. reflexivity.
Qed.

Lemma drop_final_nul_prefix (data : bytes) :
  data = drop_final_nul data \/ data = drop_final_nul data ++ [x00].
Proof.
  destruct (decide ([x00] `suffix_of` data)) as [[pre ->] | Hno].
  - right. rewrite drop_final_nul_snoc. reflexivity.
  - left. rewrite drop_final_nul_other; [reflexivity | exact Hno].
Qed.

Lemma sub_range_prefix {A} (short tail whole : list A) :
  sub_range (short ++ tail) whole -> sub_range short whole.
Proof.
  intros (pre & post & ->). exists pre, (tail ++ post).
  rewrite <- app_assoc. reflexivity.
Qed.

Lemma slice_from_sub_range (blob : bytes) (pointer : Z * Z) (data : bytes) :
  slice_from blob pointer = Ok data -> sub_range data blob.
Proof.
  destruct pointer as [offset length]. unfold slice_from, slice_from_via.
  destruct (length =? 0); [intros [= <-]; exists [], blob; reflexivity |].
  destruct ((offset <? 0) || (offset + length >? len blob)); [discriminate |].
  intros [= <-].
  pose proof (py_slice_sub_range blob offset (offset + length)) as Hsub.
  destruct (drop_final_nul_prefix (py_slice blob offset (offset + length)))
    as [Heq | Heq]; rewrite Heq in Hsub.
  - exact Hsub.
  - exact (sub_range_prefix _ _ _ Hsub).
Qed.

Lemma slice_from_raise (blob : bytes) (pointer : Z * Z) (e : exn) :
  slice_from blob pointer = Raise e -> e = PointerOutOfRange.
Proof.
  destruct pointer as [offset length]. unfold slice_from, slice_from_via.
  destruct (length =? 0); [discriminate |].
  destruct ((offset <? 0) || (offset + length >? len blob));
    [intros [= <-]; reflexivity | discriminate].
Qed.



(** ** What the enumeration yields and raises *)

Lemma read_record_outcome (graph table : bytes) (idx : Z) :
  0 <= idx -> (idx + 1) * 36 <= len table ->
  (exists entry, read_record graph table idx = Ok entry /\
                 entry_inside graph entry) \/
  read_record graph table idx = Raise PointerOutOfRange.
Proof.
  intros Hidx Hfits. unfold read_record, MODULE_STRUCT_SIZE.
  destruct (py_getitem_in_range table (idx * 36 + 32)) as (e & -> & He); [lia |].
  destruct (py_getitem_in_range table (idx * 36 + 33)) as (l & -> & Hl); [lia |].
  destruct (py_getitem_in_range table (idx * 36 + 34)) as (f & -> & Hf); [lia |].
  destruct (py_getitem_in_range table (idx * 36 + 35)) as (s & -> & Hs); [lia |].
  cbn [mbind result_bind].
  destruct (slice_from graph (read_pointer table (idx * 36)))
    as [name_bytes | e1] eqn:Hname;
    [| right; apply slice_from_raise in Hname; subst e1; reflexivity].
  destruct (utf8_decode_replace_total name_bytes) as [text Htext].
  cbn [mbind result_bind]. rewrite Htext. cbn [mbind result_bind].
  destruct (slice_from graph (read_pointer table (idx * 36 + 8)))
    as [data | e2] eqn:Hdata;
    [| right; apply slice_from_raise in Hdata; subst e2; reflexivity].
  left. eexists. split; [reflexivity |].
  unfold entry_inside. simpl.
  split; [exists name_bytes; split;
          [exact (slice_from_sub_range _ _ _ Hname) | exact Htext] |].
  split; [exact (slice_from_sub_range _ _ _ Hdata) |].
  repeat split; lia.
Qed.

Lemma for_records_outcome (graph table : bytes) (idxs : list Z) :
  (forall idx, In idx idxs -> 0 <= idx /\ (idx + 1) * 36 <= len table) ->
  Forall (entry_inside graph) (gen_values (for_records graph table idxs)) /\
  len (gen_values (for_records graph table idxs)) <= len idxs /\
  ((gen_end (for_records graph table idxs) = Ok tt /\
    len (gen_values (for_records graph table idxs)) = len idxs) \/
   gen_end (for_records graph table idxs) = Raise PointerOutOfRange).
Proof.
  induction idxs as [| idx rest IH]; intros Hall.
  - simpl. split; [constructor |]. split; [reflexivity | left; split; reflexivity].
  - destruct (Hall idx (or_introl eq_refl)) as [Hidx Hfits].
    simpl for_records.
    destruct (read_record_outcome graph table idx Hidx Hfits)
      as [(entry & -> & Hinside) | ->].
    + destruct IH as (Hforall & Hle & Hend);
        [intros i Hi; apply Hall; right; exact Hi |].
      simpl. split; [constructor; assumption |].
      unfold len in *. simpl length.
      split; [lia |]. destruct Hend as [[Hok Hlen] | Hraise].
      * left. split; [exact Hok | lia].
      * right. exact Hraise.
    + simpl. split; [constructor |].
      split; [unfold len; simpl length; lia | right; reflexivity].
Qed.

Lemma iter_modules_outcome (graph : bytes) (modules_raw : Z) :
  let modules_length := snd (decode_pointer modules_raw) in
  let values := gen_values (iter_modules graph modules_raw) in
  let ending := gen_end (iter_modules graph modules_raw) in
  Forall (entry_inside graph) values /\
  36 * len values <= modules_length /\
  ((ending = Ok tt /\
    (modules_length mod 36 = 0 -> 36 * len values = modules_length) /\
    (modules_length mod 36 <> 0 -> values = [])) \/
   (ending = Raise TableOutOfBounds /\ values = []) \/
   ending = Raise PointerOutOfRange).
Proof.
  intros modules_length values ending.
  pose proof (decode_pointer_range modules_raw) as Hrange.
  unfold values, ending, iter_modules, MODULE_STRUCT_SIZE.
  destruct (decode_pointer modules_raw) as [mo ml] eqn:Hptr.
  simpl in modules_length. fold modules_length. destruct Hrange as [Hmo Hml].
  fold modules_length in Hml.
  destruct (Z.eqb_spec modules_length 0) as [Hz | Hnz].
  { simpl. split; [constructor |]. split; [change (len []) with 0; lia |].
    left. split; [reflexivity |]. split; [intros _ | reflexivity].
    rewrite Hz. reflexivity. }
  destruct (Z.eqb_spec (modules_length mod 36) 0) as [Hmul | Hodd].
  2:{ simpl. split; [constructor |]. split; [change (len []) with 0; lia |].
      left. split; [reflexivity |]. split; [contradiction | reflexivity]. }
  simpl orb. cbv iota. rewrite Z.gtb_ltb.
  destruct (Z.ltb_spec (len graph) (mo + modules_length)) as [Hout | Hin].
  { simpl. split; [constructor |]. split; [change (len []) with 0; lia |].
    right. left. split; reflexivity. }
  assert (Hcount : modules_length = 36 * (modules_length / 36))
    by (apply Z.div_exact; [lia | assumption]).
  assert (Htable : len (py_slice graph mo (mo + modules_length)) = modules_length)
    by (rewrite py_slice_len; lia).
  assert (Hrl : len (range (modules_length / 36)) = modules_length / 36)
    by (apply range_len; lia).
  destruct (for_records_outcome graph (py_slice graph mo (mo + modules_length))
              (range (modules_length / 36))) as (Hforall & Hle & Hend).
  { intros idx Hidx. apply range_spec in Hidx. rewrite Htable. lia. }
  rewrite Hrl in Hle, Hend.
  split; [exact Hforall |]. split; [lia |].
  destruct Hend as [[Hok Hlen] | Hraise].
  - left. split; [exact Hok |]. split; [intros _; lia | contradiction].
  - right. right. exact Hraise.
Qed.

(** [iter_modules] raises nothing but [TableOutOfBounds], and that before
    it yields anything, or [PointerOutOfRange]: no index or decoding
    error escapes it.  It yields at most [modules_length / 36] entries,
    and exactly that many when it runs to its end on a table whose length
    is a multiple of 36. *)
Theorem iter_modules_exceptions :
  forall (graph : bytes) (modules_raw : Z),
    let modules_length := snd (decode_pointer modules_raw) in
    let values := gen_values (iter_modules graph modules_raw) in
    let ending := gen_end (iter_modules graph modules_raw) in
    (forall e, ending = Raise e ->
               e = TableOutOfBounds \/ e = PointerOutOfRange) /\
    (ending = Raise TableOutOfBounds -> values = []) /\
    36 * len values <= modules_length /\
    (ending = Ok tt -> modules_length mod 36 = 0 ->
     36 * len values = modules_length).
Proof.
  intros graph modules_raw modules_length values ending.
  destruct (iter_modules_outcome graph modules_raw)
    as (_ & Hle & [(Hok & Hall & _) | [(Htable & Hnil) | Hptr]]);
    fold modules_length values ending in Hle |- *.
  - fold ending in Hok. fold modules_length values in Hall.
    rewrite Hok. split; [discriminate |]. split; [discriminate |].
    split; [exact Hle | intros _; exact Hall].
  - fold ending in Htable. fold values in Hnil. rewrite Htable.
    split; [intros e [= <-]; left; reflexivity |].
    split; [intros _; exact Hnil |]. split; [exact Hle | discriminate].
  - fold ending in Hptr. rewrite Hptr.
    split; [intros e [= <-]; right; reflexivity |].
    split; [discriminate |]. split; [exact Hle | discriminate].
Qed.

(** Every entry [iter_modules] yields, also one yielded before a later
    record fails, is made of the graph's own bytes: the name decodes a
    range of the graph, the contents are a range of the graph, and the
    four metadata fields are byte values. *)
Theorem iter_modules_entries_inside :
  forall (graph : bytes) (modules_raw : Z) (entry : module_entry),
    In entry (gen_values (iter_modules graph modules_raw)) ->
    entry_inside graph entry.
Proof.
  intros graph modules_raw entry Hin.
  destruct (iter_modules_outcome graph modules_raw) as (Hforall & _).
  rewrite List.Forall_forall in Hforall. exact (Hforall entry Hin).
Qed.

(** The entry decoded before the failing record of [broken_graph]. *)
Lemma iter_modules_entries_inside_witness :
  entry_inside broken_graph
    (ModuleEntry (str_of "app.js") (ascii_bytes "console.log(1)") 1 1 0 0).
Proof.
  apply (iter_modules_entries_inside broken_graph (pack_pointer (20, 72))).
  vm_compute. left. reflexivity.
Defined.

(** ** The fields a record does not use *)

Lemma py_slice_app_left {A} (a x : list A) (lo hi : Z) :
  0 <= lo <= hi -> hi <= len a -> py_slice (a ++ x) lo hi = py_slice a lo hi.
Proof.
  intros Hlo Hhi.
  rewrite !py_slice_in_range by (rewrite ?len_app; pose proof (len_nonneg x); lia).
  unfold len in Hhi.
  rewrite drop_app_le by lia. rewrite take_app_le; [reflexivity |].
  rewrite length_drop. lia.
Qed.

Lemma py_getitem_behind (a m m' b : bytes) (i : Z) :
  len m = len m' -> len a + len m <= i ->
  py_getitem (a ++ m ++ b) i = py_getitem (a ++ m' ++ b) i.
Proof.
  intros Hm Hi. unfold py_getitem. rewrite !len_app, <- Hm.
  pose proof (len_nonneg a). pose proof (len_nonneg m).
  destruct (Z.ltb_spec i 0); [lia |].
  destruct ((i <? 0) || (len a + (len m + len b) <=? i)); [reflexivity |].
  unfold len in *.
  assert (Hnth : forall k, nth_error (a ++ k ++ b) (Z.to_nat i) =
                           nth_error b (Z.to_nat i - length a - length k)%nat
                           \/ (Z.to_nat i < length a + length k)%nat).
  { intros k. destruct (Nat.lt_ge_cases (Z.to_nat i) (length a + length k));
      [right; assumption | left].
    rewrite nth_error_app2 by lia. rewrite nth_error_app2 by lia. reflexivity. }
  destruct (Hnth m) as [-> |]; [| lia].
  destruct (Hnth m') as [-> |]; [| lia].
  replace (length m') with (length m) by lia. reflexivity.
Qed.

(** A record's source map and bytecode pointers (its bytes 16 to 31) are
    read and never resolved: whatever they hold, also a range outside the
    graph, the record decodes to the same entry or fails the same way. *)
Theorem read_record_ignores_maps :
  forall (graph before maps maps' behind : bytes) (idx : Z),
    len before = idx * 36 + 16 -> len maps = 16 -> len maps' = 16 ->
    read_record graph (before ++ maps ++ behind) idx =
    read_record graph (before ++ maps' ++ behind) idx.
Proof.
  intros graph before maps maps' behind idx Hbefore Hmaps Hmaps'.
  assert (Hidx : 0 <= idx) by (pose proof (len_nonneg before); lia).
  unfold read_record, MODULE_STRUCT_SIZE, read_pointer.
  rewrite !(py_slice_app_left before (maps ++ behind)) by lia.
  rewrite !(py_slice_app_left before (maps' ++ behind)) by lia.
  rewrite !(py_getitem_behind before maps maps' behind) by lia.
  reflexivity.
Qed.

(** The record of [app_graph] with both unused pointers set to the range
    (0xFFFFFFFF, 0xFFFFFFFF) decodes as before. *)
Lemma read_record_ignores_maps_witness :
  read_record app_graph
    (to_bytes_little 4 0 ++ to_bytes_little 4 6 ++
     to_bytes_little 4 6 ++ to_bytes_little 4 14 ++
     repeat x00 16 ++ [x01; x01; x00; x00]) 0 =
  read_record app_graph
    ((to_bytes_little 4 0 ++ to_bytes_little 4 6 ++
      to_bytes_little 4 6 ++ to_bytes_little 4 14) ++
     repeat xff 16 ++ [x01; x01; x00; x00]) 0.
Proof.
  apply (read_record_ignores_maps app_graph
           (to_bytes_little 4 0 ++ to_bytes_little 4 6 ++
            to_bytes_little 4 6 ++ to_bytes_little 4 14)
           (repeat x00 16) (repeat xff 16) [x01; x01; x00; x00] 0);
    reflexivity.
Defined.

(** ** The layout the locator accepts *)

Lemma rfind_at_end (x sub : bytes) : rfind (x ++ sub) sub = len x.
Proof.
  apply rfind_last. split.
  - exists x, []. rewrite app_nil_r. split; reflexivity.
  - intros j Hj. apply occurs_at_bound in Hj. rewrite len_app in Hj. lia.
Qed.

Lemma py_slice_inside {A} (x y z : list A) (a b : Z) :
  0 <= a <= b -> b <= len y ->
  py_slice (x ++ y ++ z) (len x + a) (len x + b) = py_slice y a b.
Proof.
  intros Ha Hb. pose proof (len_nonneg x). pose proof (len_nonneg z).
  rewrite !py_slice_in_range by (rewrite ?len_app; lia).
  replace (len x + b - (len x + a)) with (b - a) by lia.
  unfold len in *.
  replace (Z.to_nat (Z.of_nat (length x) + a)) with (length x + Z.to_nat a)%nat by lia.
  rewrite drop_app_add'; [| reflexivity].
  rewrite drop_app_le by lia. rewrite take_app_le; [reflexivity |].
  rewrite length_drop. lia.
Qed.

Lemma split_at {A} (l : list A) (n : Z) :
  0 <= n <= len l -> exists a b, l = a ++ b /\ len a = n.
Proof.
  intros Hn. exists (take (Z.to_nat n) l), (drop (Z.to_nat n) l).
  split; [symmetry; apply take_drop |].
  unfold len in *. rewrite length_take. lia.
Qed.

(** A file that ends in a graph, a 32-byte header whose first eight bytes
    hold the graph's length, and the marker, is located back: the locator
    returns that graph and the value of the header's second eight bytes,
    whatever precedes the graph and whatever the graph holds, further
    markers too. *)
Theorem find_module_graph_round_trip :
  forall (lead graph count_bytes raw_bytes rest : bytes),
    graph <> [] ->
    len count_bytes = 8 -> len raw_bytes = 8 -> len rest = 16 ->
    from_bytes_little count_bytes = len graph ->
    find_module_graph
      (lead ++ graph ++ count_bytes ++ raw_bytes ++ rest ++ TRAILER)
    = Ok (graph, from_bytes_little raw_bytes).
Proof.
  intros lead graph count_bytes raw_bytes rest Hne Hcb Hrb Hrest Hcount.
  set (buffer := lead ++ graph ++ count_bytes ++ raw_bytes ++ rest ++ TRAILER).
  assert (Hgraph : 0 < len graph).
  { destruct graph; [contradiction | unfold len; simpl length; lia]. }
  pose proof (len_nonneg lead) as Hlead.
  assert (Hidx : rfind buffer TRAILER = len lead + len graph + 32).
  { unfold buffer.
    replace (lead ++ graph ++ count_bytes ++ raw_bytes ++ rest ++ TRAILER)
      with ((lead ++ graph ++ count_bytes ++ raw_bytes ++ rest) ++ TRAILER)
      by (rewrite <- !app_assoc; reflexivity).
    rewrite rfind_at_end, !len_app. lia. }
  assert (Hlen : len buffer = len lead + len graph + 48).
  { unfold buffer. rewrite !len_app. change (len TRAILER) with 16. lia. }
  assert (Hc : py_slice buffer (len lead + len graph) (len lead + len graph + 8)
               = count_bytes).
  { unfold buffer.
    replace (lead ++ graph ++ count_bytes ++ raw_bytes ++ rest ++ TRAILER)
      with ((lead ++ graph) ++ count_bytes ++ (raw_bytes ++ rest ++ TRAILER))
      by (rewrite <- !app_assoc; reflexivity).
    rewrite <- len_app, <- Hcb. apply py_slice_middle. }
  assert (Hr : py_slice buffer (len lead + len graph + 8) (len lead + len graph + 16)
               = raw_bytes).
  { unfold buffer.
    replace (lead ++ graph ++ count_bytes ++ raw_bytes ++ rest ++ TRAILER)
      with ((lead ++ graph ++ count_bytes) ++ raw_bytes ++ (rest ++ TRAILER))
      by (rewrite <- !app_assoc; reflexivity).
    replace (len lead + len graph + 8) with (len (lead ++ graph ++ count_bytes))
      by (rewrite !len_app; lia).
    replace (len lead + len graph + 16)
      with (len (lead ++ graph ++ count_bytes) + len raw_bytes)
      by (rewrite !len_app; lia).
    apply py_slice_middle. }
  assert (Hg : py_slice buffer (len lead) (len lead + len graph) = graph)
    by apply py_slice_middle.
  pose proof (find_module_graph_cases buffer) as Hcases. cbv zeta in Hcases.
  rewrite Hcases, Hidx. clear Hcases.
  replace (len lead + len graph + 32 - 32) with (len lead + len graph) by lia.
  replace (len lead + len graph + 32 - 24) with (len lead + len graph + 8) by lia.
  replace (len lead + len graph + 32 - 16) with (len lead + len graph + 16) by lia.
  rewrite Hc, Hr, Hcount, Hlen.
  replace (len lead + len graph - len graph) with (len lead) by lia.
  rewrite Hg.
  destruct (Z.eqb_spec (len lead + len graph + 32) (-1)); [lia |].
  destruct (Z.ltb_spec (len lead + len graph + 32) 32); [lia |].
  destruct (Z.eqb_spec (len graph) 0); [lia |].
  destruct (Z.ltb_spec (len lead + len graph + 48) (len graph)); [lia |].
  simpl orb. cbv iota.
  destruct (Z.ltb_spec (len lead + len graph) (len graph)); [lia | reflexivity].
Qed.

(** The file of the end-to-end scenario, spelled out in its parts. *)
Lemma find_module_graph_round_trip_witness :
  find_module_graph
    (ascii_bytes "#!ELF" ++ app_graph ++ to_bytes_little 8 56 ++
     to_bytes_little 8 (pack_pointer (20, 36)) ++ repeat x00 16 ++ TRAILER)
  = Ok (app_graph,
        from_bytes_little (to_bytes_little 8 (pack_pointer (20, 36)))).
Proof.
  apply (find_module_graph_round_trip (ascii_bytes "#!ELF") app_graph
           (to_bytes_little 8 56) (to_bytes_little 8 (pack_pointer (20, 36)))
           (repeat x00 16));
    [vm_compute; discriminate | reflexivity ..].
Defined.

(** What the locator returns determines the file's end: on success the
    buffer is some leading bytes, the returned graph (not empty), a
    32-byte header that starts with the graph's length and the returned
    pointer, the marker, and a tail in which no further marker is
    complete.  The only errors of the locator are its four own. *)
Theorem find_module_graph_layout :
  forall buffer : bytes,
    (forall graph modules_raw,
        find_module_graph buffer = Ok (graph, modules_raw) ->
        exists lead count_bytes raw_bytes rest tail,
          buffer = lead ++ graph ++ count_bytes ++ raw_bytes ++ rest
                        ++ TRAILER ++ tail /\
          graph <> [] /\
          len count_bytes = 8 /\ len raw_bytes = 8 /\ len rest = 16 /\
          from_bytes_little count_bytes = len graph /\
          from_bytes_little raw_bytes = modules_raw /\
          forall j, occurs_at buffer TRAILER j ->
                    j + 16 <= len buffer - len tail) /\
    (forall e, find_module_graph buffer = Raise e ->
               e = TrailerNotFound \/ e = OffsetsOutOfRange \/
               e = InvalidByteCount \/ e = StartBeforeFile).
Proof.
  intros buffer. pose proof (find_module_graph_cases buffer) as Hcases.
  cbv zeta in Hcases. rewrite Hcases. clear Hcases.
  set (idx := rfind buffer TRAILER).
  set (byte_count := from_bytes_little (py_slice buffer (idx - 32) (idx - 24))).
  pose proof (rfind_spec buffer TRAILER) as Hspec. fold idx in Hspec.
  split.
  - intros graph modules_raw Hok.
    destruct (Z.eqb_spec idx (-1)); [discriminate |].
    destruct (Z.ltb_spec idx 32); [discriminate |].
    destruct (Z.eqb_spec byte_count 0); [discriminate |].
    destruct (Z.ltb_spec (len buffer) byte_count); [discriminate |].
    destruct (Z.ltb_spec (idx - 32) byte_count); [discriminate |].
    simpl in Hok. injection Hok as Hgraph Hraw.
    assert (Hbc : 0 <= byte_count) by apply from_bytes_little_range.
    destruct Hspec as [[? _] | [_ [Hocc Hlast]]]; [contradiction |].
    destruct Hocc as (pre & tail & Hbuf & Hpre).
    destruct (split_at pre (idx - 32 - byte_count)) as (lead & p1 & -> & Hlead);
      [lia |].
    rewrite len_app in Hpre.
    destruct (split_at p1 byte_count) as (g & p2 & -> & Hg); [lia |].
    rewrite len_app in Hpre.
    destruct (split_at p2 8) as (cb & p3 & -> & Hcb); [lia |].
    rewrite len_app in Hpre.
    destruct (split_at p3 8) as (rb & rest & -> & Hrb); [lia |].
    rewrite len_app in Hpre.
    assert (Hshape : buffer = lead ++ g ++ cb ++ rb ++ rest ++ TRAILER ++ tail)
      by (rewrite Hbuf, <- !app_assoc; reflexivity).
    assert (Hg' : graph = g).
    { rewrite <- Hgraph, Hshape.
      replace (idx - 32 - byte_count) with (len lead) by lia.
      replace (idx - 32) with (len lead + len g) by lia.
      apply py_slice_middle. }
    assert (Hcount : py_slice buffer (idx - 32) (idx - 24) = cb).
    { rewrite Hshape.
      replace (lead ++ g ++ cb ++ rb ++ rest ++ TRAILER ++ tail)
        with ((lead ++ g) ++ cb ++ (rb ++ rest ++ TRAILER ++ tail))
        by (rewrite <- !app_assoc; reflexivity).
      replace (idx - 32) with (len (lead ++ g)) by (rewrite len_app; lia).
      replace (idx - 24) with (len (lead ++ g) + len cb) by (rewrite len_app; lia).
      apply py_slice_middle. }
    assert (Hptr : py_slice buffer (idx - 24) (idx - 16) = rb).
    { rewrite Hshape.
      replace (lead ++ g ++ cb ++ rb ++ rest ++ TRAILER ++ tail)
        with ((lead ++ g ++ cb) ++ rb ++ (rest ++ TRAILER ++ tail))
        by (rewrite <- !app_assoc; reflexivity).
      replace (idx - 24) with (len (lead ++ g ++ cb)) by (rewrite !len_app; lia).
      replace (idx - 16) with (len (lead ++ g ++ cb) + len rb)
        by (rewrite !len_app; lia).
      apply py_slice_middle. }
    exists lead, cb, rb, rest, tail. clear Hgraph. subst graph.
    split; [exact Hshape |].
    split; [intros ->; change (len []) with 0 in Hg; lia |].
    split; [exact Hcb |]. split; [exact Hrb |]. split; [lia |].
    split; [rewrite <- Hcount; fold byte_count; lia |].
    split; [rewrite <- Hptr; exact Hraw |].
    intros j Hj. apply Hlast in Hj.
    rewrite Hshape at 1. rewrite !len_app. change (len TRAILER) with 16. lia.
  - intros e.
    destruct (idx =? -1); [intros [= <-]; tauto |].
    destruct (idx <? 32); [intros [= <-]; tauto |].
    destruct ((byte_count =? 0) || (len buffer <? byte_count));
      [intros [= <-]; tauto |].
    destruct (idx - 32 <? byte_count); [intros [= <-]; tauto | discriminate].
Qed.

(** ** Output names *)

Lemma dedup_loop_first_unused (written_names : gset pystr) (base : pystr) :
  forall (fuel j : nat),
    (forall i, (i < j)%nat -> nth_candidate base (Z.of_nat i) ∈ written_names) ->
    (size written_names <= j + fuel)%nat ->
    exists k : nat,
      (j <= k <= size written_names)%nat /\
      dedup_loop fuel written_names base
        (nth_candidate base (Z.of_nat j)) (Z.of_nat j + 1)
      = nth_candidate base (Z.of_nat k) /\
      (nth_candidate base (Z.of_nat k) ∉ written_names) /\
      forall i, (i < k)%nat -> nth_candidate base (Z.of_nat i) ∈ written_names.
Proof.
  induction fuel as [| fuel IH]; intros j Htried Hfuel.
  - cbn [dedup_loop]. case_bool_decide as Hin.
    + exfalso. assert (S j <= size written_names)%nat; [| lia].
      apply (tried_candidates_bound written_names base (S j)).
      intros i Hi. destruct (Nat.eq_dec i j) as [-> | Hne];
        [exact Hin | apply Htried; lia].
    + exists j. pose proof (tried_candidates_bound _ _ _ Htried).
      repeat split; first [lia | assumption].
  - cbn [dedup_loop]. case_bool_decide as Hin.
    + replace (base ++ str_of "_" ++ str_of_int (Z.of_nat j + 1))
        with (nth_candidate base (Z.of_nat (S j))).
      * replace (Z.of_nat j + 1 + 1) with (Z.of_nat (S j) + 1) by lia.
        destruct (IH (S j)) as (k & Hk & Heq & Hfresh & Hbelow); [| lia |].
        -- intros i Hi. destruct (Nat.eq_dec i j) as [-> | Hne];
             [exact Hin | apply Htried; lia].
        -- exists k. repeat split; first [lia | assumption].
      * unfold nth_candidate. destruct (Z.eqb_spec (Z.of_nat (S j)) 0); [lia |].
        do 3 f_equal. lia.
    + exists j. pose proof (tried_candidates_bound _ _ _ Htried).
      repeat split; first [lia | assumption].
Qed.

(** The loop that makes a name unique returns the first of [base],
    [base_1], [base_2], ... that is not yet written: [base] itself when it
    is free, and never more than [size written_names] steps along. *)
Theorem unique_candidate_first_unused :
  forall (written_names : gset pystr) (base : pystr),
    (base ∉ written_names -> unique_candidate written_names base = base) /\
    exists k : Z,
      0 <= k <= Z.of_nat (size written_names) /\
      unique_candidate written_names base = nth_candidate base k /\
      (nth_candidate base k ∉ written_names) /\
      forall i, 0 <= i < k -> nth_candidate base i ∈ written_names.
Proof.
  intros written_names base.
  destruct (dedup_loop_first_unused written_names base (size written_names) 0)
    as (k & Hk & Heq & Hfresh & Hbelow); [intros i Hi; lia | lia |].
  change (dedup_loop (size written_names) written_names base
            (nth_candidate base (Z.of_nat 0)) (Z.of_nat 0 + 1))
    with (unique_candidate written_names base) in Heq.
  split.
  - intros Hfree. destruct k as [| k]; [exact Heq |].
    exfalso. apply Hfree. apply (Hbelow 0%nat). lia.
  - exists (Z.of_nat k). split; [lia |]. split; [exact Heq |].
    split; [exact Hfresh |].
    intros i Hi. replace i with (Z.of_nat (Z.to_nat i)) by lia.
    apply Hbelow. lia.
Qed.

(** With [a] and [a_1] written, the name picked for [a] is [a_2]. *)
Lemma unique_candidate_first_unused_witness :
  unique_candidate {[ str_of "a"; str_of "a_1" ]} (str_of "a") = str_of "a_2" /\
  unique_candidate {[ str_of "a"; str_of "a_1" ]} (str_of "b") = str_of "b".
Proof.
  destruct (unique_candidate_first_unused {[ str_of "a"; str_of "a_1" ]} (str_of "b"))
    as [Hfree _].
  split; [vm_compute; reflexivity |].
  apply Hfree. vm_compute. intros H. discriminate H.
Defined.

Lemma replace_scan_chars (old new : pystr) (x : Z) :
  forall (s : pystr) (skip : nat),
    In x (replace_scan old new s skip) -> In x s \/ In x new.
Proof.
  induction s as [| c rest IH]; intros skip; [simpl; tauto |].
  cbn [replace_scan]. destruct skip as [| k].
  - destruct (startswith (c :: rest) old).
    + rewrite in_app_iff. intros [Hnew | Hrest]; [right; exact Hnew |].
      apply IH in Hrest. simpl. tauto.
    + intros [-> | Hrest]; [left; left; reflexivity |].
      apply IH in Hrest. simpl. tauto.
  - intros Hrest. apply IH in Hrest. simpl. tauto.
Qed.

(** [replace] brings in no character that is not in the text or in the
    replacement. *)
Lemma str_replace_chars (s old new : pystr) (x : Z) :
  In x (str_replace s old new) -> In x s \/ In x new.
Proof.
  unfold str_replace. destruct old as [| o old].
  - rewrite in_app_iff. intros [Hnew | Hflat]; [right; exact Hnew |].
    apply in_flat_map in Hflat as (c & Hc & [-> | Hnew]); tauto.
  - apply replace_scan_chars.
Qed.

(** Replacing a character by a text without it leaves none of it. *)
Lemma str_replace_single_removes (s new : pystr) (c : Z) :
  ~ In c new -> ~ In c (str_replace s [c] new).
Proof.
  intros Hnew. unfold str_replace.
  induction s as [| x rest IH]; [simpl; tauto |].
  cbn [replace_scan]. destruct (startswith (x :: rest) [c]) eqn:Hstart.
  - simpl length. simpl Nat.sub. rewrite in_app_iff. tauto.
  - intros [-> | Hrest]; [| exact (IH Hrest)].
    apply not_true_iff_false in Hstart. apply Hstart.
    apply startswith_true. exists rest. reflexivity.
Qed.

Lemma str_of_cons (a : ascii) (s : string) :
  str_of (String a s) = Z.of_N (N_of_ascii a) :: str_of s.
Proof. reflexivity. Qed.

Lemma uint_chars (d : Decimal.uint) (c : Z) :
  In c (str_of (NilEmpty.string_of_uint d)) -> 48 <= c <= 57.
Proof.
  induction d; cbn [NilEmpty.string_of_uint]; try (simpl; tauto);
    rewrite str_of_cons; intros [<- | Hrest]; try (exact (IHd Hrest));
    vm_compute; split; discriminate.
Qed.

(** [str(n)] is made of digits and the minus sign. *)
Lemma str_of_int_chars (n c : Z) :
  In c (str_of_int n) -> c = 45 \/ 48 <= c <= 57.
Proof.
  unfold str_of_int, NilZero.string_of_int, NilZero.string_of_uint.
  destruct (Z.to_int n) as [d | d].
  - destruct d; try (intros Hin; right; revert Hin; apply uint_chars).
    simpl. intros [<- | []]. right. lia.
  - rewrite str_of_cons. intros [<- | Hin]; [left; reflexivity | right].
    destruct d; try (revert Hin; apply uint_chars).
    simpl in Hin. destruct Hin as [<- | []]. lia.
Qed.

Lemma nth_candidate_chars (base : pystr) (k c : Z) :
  In c (nth_candidate base k) ->
  In c base \/ c = 95 \/ c = 45 \/ 48 <= c <= 57.
Proof.
  unfold nth_candidate. destruct (k =? 0); [tauto |].
  rewrite !in_app_iff. intros [Hbase | [Hsep | Hdigits]].
  - tauto.
  - simpl in Hsep. destruct Hsep as [<- | []]. right. left. reflexivity.
  - apply str_of_int_chars in Hdigits. tauto.
Qed.

Lemma str_or_chars (a b : pystr) (c : Z) :
  In c (str_or a b) -> In c a \/ In c b.
Proof. destruct a; simpl; tauto. Qed.

Lemma bundle_base_no_slash (os_sep name : pystr) :
  ~ In 47 (bundle_base os_sep name).
Proof.
  unfold bundle_base. intros Hin.
  apply str_or_chars in Hin as [Hin | Hin];
    [| vm_compute in Hin; intuition discriminate].
  apply str_replace_chars in Hin as [Hin | Hin];
    [| vm_compute in Hin; intuition discriminate].
  revert Hin. apply str_replace_single_removes.
  vm_compute. intuition discriminate.
Qed.

Lemma bundle_base_no_backslash (name : pystr) :
  ~ In 92 (bundle_base [92] name).
Proof.
  unfold bundle_base. intros Hin.
  apply str_or_chars in Hin as [Hin | Hin];
    [| vm_compute in Hin; intuition discriminate].
  revert Hin. apply str_replace_single_removes.
  vm_compute. intuition discriminate.
Qed.

Lemma bundle_base_not_empty (os_sep name : pystr) :
  bundle_base os_sep name <> [].
Proof.
  unfold bundle_base.
  destruct (str_replace _ os_sep (str_of "_")); simpl; discriminate.
Qed.

(** The name under which an entry is written holds no [/], whatever the
    entry is called and whatever [os.sep] is, and no backslash when that
    is [os.sep]; it is never empty. *)
Theorem output_name_has_no_separator :
  forall (os_sep name : pystr) (written_names : gset pystr),
    let candidate := unique_candidate written_names (bundle_base os_sep name) in
    candidate <> [] /\
    ~ In 47 candidate /\
    (os_sep = [92] -> ~ In 92 candidate).
Proof.
  intros os_sep name written_names candidate.
  destruct (dedup_loop_first_unused written_names (bundle_base os_sep name)
              (size written_names) 0) as (k & _ & Heq & _);
    [intros i Hi; lia | lia |].
  change (dedup_loop _ _ _ _ _) with candidate in Heq.
  split; [| split].
  - rewrite Heq. unfold nth_candidate.
    pose proof (bundle_base_not_empty os_sep name) as Hne.
    destruct (Z.of_nat k =? 0); [exact Hne |].
    destruct (bundle_base os_sep name); [contradiction | discriminate].
  - rewrite Heq. intros Hin. apply nth_candidate_chars in Hin.
    destruct Hin as [Hin | Hin]; [| lia].
    exact (bundle_base_no_slash _ _ Hin).
  - intros ->. rewrite Heq. intros Hin. apply nth_candidate_chars in Hin.
    destruct Hin as [Hin | Hin]; [| lia].
    exact (bundle_base_no_backslash _ Hin).
Qed.

(** An entry named [/$bunfs/root/../../etc/x.js] is written as
    [.._.._etc_x.js]. *)
Example bundle_base_traversal :
  bundle_base (str_of "/") (str_of "/$bunfs/root/../../etc/x.js")
  = str_of ".._.._etc_x.js".
Proof. vm_compute. reflexivity. Qed.

(** ** Writing the bundles *)

Lemma collect_bundles_ok (modules : gen module_entry) :
  forall bundles : list (pystr * bytes),
    gen_end modules = Ok tt ->
    collect_bundles modules bundles =
    Ok (bundles ++ eligible (gen_values modules)).
Proof.
  induction modules as [| entry rest IH | e]; intros bundles Hend.
  - simpl. rewrite app_nil_r. reflexivity.
  - simpl in Hend. cbn [collect_bundles gen_values]. unfold eligible.
    cbn [filter list_filter].
    destruct (should_extract (name entry) (encoding entry) (loader entry)) eqn:Hs.
    + rewrite decide_True by reflexivity. rewrite IH by exact Hend.
      unfold eligible. cbn [map]. rewrite <- app_assoc. reflexivity.
    + rewrite decide_False by discriminate. apply IH. exact Hend.
  - discriminate.
Qed.


Section WriteProperties.

Context {Path : Type} `{Countable Path}.
Variable joinpath : Path -> pystr -> Path.
Variable with_parents : Path -> gset Path.
Variable os_sep : pystr.
Variable run_prettier : Path -> world Path -> result unit * world Path.





End WriteProperties.




(** ** The extraction as a whole *)

(** When the file parses and no entry is eligible, [extract] raises
    [NoEntriesFound] and leaves the world as it was, with or without the
    formatter: the output directory is not even made. *)
Theorem extract_no_entries :
  forall {Path : Type} `{Countable Path}
         (joinpath : Path -> pystr -> Path) (with_parents : Path -> gset Path)
         (os_sep : pystr)
         (run_prettier : Path -> world Path -> result unit * world Path)
         (binary output : Path) (prettify : bool) (w : world Path)
         (buf graph : bytes) (modules_raw : Z),
    files w !! binary = Some buf ->
    find_module_graph buf = Ok (graph, modules_raw) ->
    gen_end (iter_modules graph modules_raw) = Ok tt ->
    (forall entry, In entry (gen_values (iter_modules graph modules_raw)) ->
       should_extract (name entry) (encoding entry) (loader entry) = false) ->
    extract joinpath with_parents os_sep run_prettier binary output prettify w
    = (Raise NoEntriesFound, w).
Proof.
  intros Path Heq Hcount joinpath with_parents os_sep run_prettier binary output
         prettify w buf graph modules_raw Hread Hfind Hend Hnone.
  unfold extract, read_bytes. rewrite Hread, Hfind.
  rewrite (collect_bundles_ok _ [] Hend). cbn [app].
  replace (eligible (gen_values (iter_modules graph modules_raw))) with
    (@nil (pystr * bytes)); [reflexivity |].
  unfold eligible. symmetry.
  induction (gen_values (iter_modules graph modules_raw)) as [| entry rest IH];
    [reflexivity |].
  cbn [filter list_filter].
  rewrite decide_False
    by (rewrite (Hnone entry (or_introl eq_refl)); discriminate).
  apply IH. intros e He. apply Hnone. right. exact He.
Qed.

(** A file whose only record has encoding 0. *)
Lemma extract_no_entries_witness :
  extract_text (str_of "bin") (str_of "out") true
    (world_with (str_of "bin") opaque_file)
  = (Raise NoEntriesFound, world_with (str_of "bin") opaque_file).
Proof.
  apply (extract_no_entries text_join only_itself (str_of "/") prettier_idle
           (str_of "bin") (str_of "out") true
           (world_with (str_of "bin") opaque_file) opaque_file opaque_graph
           (pack_pointer (20, 36))).
  - apply lookup_singleton_eq.
  - vm_compute. reflexivity.
  - vm_compute. reflexivity.
  - intros entry Hin. vm_compute in Hin. destruct Hin as [<- | []].
    vm_compute. reflexivity.
Defined.



(** ** Order of the enumeration *)

Lemma for_records_in_order (graph table : bytes) (idxs : list Z) :
  let values := gen_values (for_records graph table idxs) in
  (forall i entry, nth_error values i = Some entry ->
     exists idx, nth_error idxs i = Some idx /\
                 read_record graph table idx = Ok entry) /\
  (forall e, gen_end (for_records graph table idxs) = Raise e ->
     exists idx, nth_error idxs (length values) = Some idx /\
                 read_record graph table idx = Raise e).
Proof.
  induction idxs as [| idx rest IH]; cbn zeta.
  - simpl. split; [intros [| i] entry; discriminate | discriminate].
  - cbn [for_records].
    destruct (read_record graph table idx) as [entry0 | e0] eqn:Hrec.
    + cbn zeta in IH. destruct IH as [Hvals Hend]. cbn [gen_values gen_end].
      split.
      * intros [| i] entry Hnth.
        -- injection Hnth as <-. exists idx. split; [reflexivity | exact Hrec].
        -- exact (Hvals i entry Hnth).
      * intros e He. exact (Hend e He).
    + cbn [gen_values gen_end]. split; [intros [| i] entry; discriminate |].
      intros e [= <-]. exists idx. split; [reflexivity | exact Hrec].
Qed.

Lemma range_nth (n : Z) (i : nat) (idx : Z) :
  nth_error (range n) i = Some idx -> idx = Z.of_nat i /\ Z.of_nat i < n.
Proof.
  unfold range. intros Hnth.
  assert (Hlt : (i < length (map Z.of_nat (seq 0 (Z.to_nat n))))%nat)
    by (apply nth_error_Some; congruence).
  rewrite length_map, length_seq in Hlt.
  rewrite nth_error_map in Hnth.
  assert (Hseq : nth_error (seq 0 (Z.to_nat n)) i = Some i).
  { rewrite (nth_error_nth' _ 0%nat) by (rewrite length_seq; exact Hlt).
    rewrite seq_nth by exact Hlt. reflexivity. }
  rewrite Hseq in Hnth. simpl in Hnth. injection Hnth as <-. lia.
Qed.

(** Over a table that lies inside the graph, [iter_modules] yields the
    records in table order and stops at the first one that fails: the
    entry yielded at position [i] is what record [i] decodes to, and when
    the enumeration raises, it raises what the record after the last
    yielded entry fails with. *)
Theorem iter_modules_in_table_order :
  forall (graph : bytes) (modules_raw : Z),
    let modules_offset := fst (decode_pointer modules_raw) in
    let modules_length := snd (decode_pointer modules_raw) in
    let table :=
      py_slice graph modules_offset (modules_offset + modules_length) in
    let values := gen_values (iter_modules graph modules_raw) in
    modules_length <> 0 -> modules_length mod 36 = 0 ->
    modules_offset + modules_length <= len graph ->
    (forall i entry, nth_error values i = Some entry ->
       read_record graph table (Z.of_nat i) = Ok entry) /\
    (forall e, gen_end (iter_modules graph modules_raw) = Raise e ->
       read_record graph table (len values) = Raise e /\
       len values < modules_length / 36).
Proof.
  intros graph modules_raw modules_offset modules_length table values
         Hnz Hmul Hfits.
  unfold values, iter_modules, MODULE_STRUCT_SIZE.
  destruct (decode_pointer modules_raw) as [mo ml] eqn:Hptr.
  simpl in modules_offset, modules_length.
  fold modules_offset modules_length. fold table.
  destruct (Z.eqb_spec modules_length 0); [contradiction |].
  destruct (Z.eqb_spec (modules_length mod 36) 0); [| contradiction].
  simpl orb. cbv iota. rewrite Z.gtb_ltb.
  destruct (Z.ltb_spec (len graph) (modules_offset + modules_length)); [lia |].
  destruct (for_records_in_order graph table (range (modules_length / 36)))
    as [Hvals Hend].
  split.
  - intros i entry Hnth. destruct (Hvals i entry Hnth) as (idx & Hidx & Hrec).
    apply range_nth in Hidx as [-> _]. exact Hrec.
  - intros err He. destruct (Hend err He) as (idx & Hidx & Hrec).
    apply range_nth in Hidx as [-> Hlt]. split; [exact Hrec | exact Hlt].
Qed.

(** In [broken_graph] the first record is yielded and the second is the
    one that fails. *)
Lemma iter_modules_in_table_order_witness :
  read_record broken_graph (py_slice broken_graph 20 92) 1 =
  Raise PointerOutOfRange.
Proof.
  destruct (iter_modules_in_table_order broken_graph (pack_pointer (20, 72)))
    as [_ Hend]; [vm_compute; discriminate | reflexivity | vm_compute; discriminate |].
  destruct (Hend PointerOutOfRange) as [Hrec _]; [vm_compute; reflexivity |].
  exact Hrec.
Defined.

(** ** Names in the common case *)

(** Bytes below 0x80 decode to themselves, one character per byte, with
    either error handler: an ASCII name is never altered and never holds
    a replacement character. *)
Theorem utf8_decode_ascii :
  forall (errors : error_handler) (bs : bytes),
    (forall b, In b bs -> byte_val b < 0x80) ->
    utf8_decode errors bs = Ok (map byte_val bs) /\
    ~ In REPLACEMENT_CHARACTER (map byte_val bs).
Proof.
  intros errors bs. induction bs as [| b rest IH]; intros Hascii.
  - split; [reflexivity | intros []].
  - destruct IH as [Hrest Hclean]; [intros x Hx; apply Hascii; right; exact Hx |].
    pose proof (Hascii b (or_introl eq_refl)) as Hb.
    split.
    + cbn [utf8_decode]. destruct (Z.ltb_spec (byte_val b) 128); [| lia].
      rewrite Hrest. reflexivity.
    + intros [Heq | Hin]; [| exact (Hclean Hin)].
      unfold REPLACEMENT_CHARACTER in Heq. lia.
Qed.

(** The name bytes [app.js]. *)
Lemma utf8_decode_ascii_witness :
  utf8_decode Replace (ascii_bytes "app.js") = Ok (str_of "app.js").
Proof.
  destruct (utf8_decode_ascii Replace (ascii_bytes "app.js")) as [Hdecode _].
  - intros b Hin. vm_compute in Hin.
    repeat (destruct Hin as [<- | Hin]; [vm_compute; reflexivity |]).
    destruct Hin.
  - exact Hdecode.
Defined.

Lemma replace_scan_skip (old new a s : pystr) :
  replace_scan old new (a ++ s) (length a) = replace_scan old new s 0.
Proof.
  induction a as [| c a IH]; [reflexivity |].
  simpl app. simpl length. cbn [replace_scan]. exact IH.
Qed.

(** An occurrence at the very start is replaced and the scan goes on
    behind it. *)
Lemma str_replace_at_start (old new s : pystr) :
  old <> [] -> str_replace (old ++ s) old new = new ++ str_replace s old new.
Proof.
  destruct old as [| o old']; [contradiction | intros _].
  unfold str_replace. simpl app. cbn [replace_scan].
  replace (startswith (o :: old' ++ s) (o :: old')) with true
    by (symmetry; apply startswith_true; exists s; reflexivity).
  replace (length (o :: old') - 1)%nat with (length old') by (simpl; lia).
  rewrite replace_scan_skip. reflexivity.
Qed.

(** A text without the second character of [old] holds no occurrence of
    it and is left as it is. *)
Lemma replace_scan_absent (o1 o2 : Z) (old new s : pystr) :
  ~ In o2 s -> replace_scan (o1 :: o2 :: old) new s 0 = s.
Proof.
  induction s as [| c rest IH]; intros Hno; [reflexivity |].
  cbn [replace_scan].
  destruct (startswith (c :: rest) (o1 :: o2 :: old)) eqn:Hstart.
  - exfalso. apply startswith_true in Hstart as [post Hpost].
    injection Hpost as _ ->. apply Hno. right. left. reflexivity.
  - f_equal. apply IH. intros Hin. apply Hno. right. exact Hin.
Qed.

Lemma str_replace_single_map (s : pystr) (c d : Z) :
  str_replace s [c] [d] = map (fun x => if x =? c then d else x) s.
Proof.
  unfold str_replace. induction s as [| x rest IH]; [reflexivity |].
  cbn [replace_scan map]. simpl length. simpl Nat.sub.
  destruct (Z.eqb_spec x c) as [-> | Hne].
  - replace (startswith (c :: rest) [c]) with true
      by (symmetry; apply startswith_true; exists rest; reflexivity).
    simpl app. f_equal. exact IH.
  - replace (startswith (x :: rest) [c]) with false.
    + f_equal. exact IH.
    + symmetry. apply not_true_iff_false. intros Hstart.
      apply startswith_true in Hstart as [post Hpost].
      injection Hpost as -> _. contradiction.
Qed.

Lemma lstrip_kept (s chars : pystr) :
  (forall c rest, s = c :: rest -> ~ In c chars) -> lstrip s chars = s.
Proof.
  destruct s as [| c rest]; [reflexivity |]. intros Hhead.
  cbn [lstrip]. replace (is_in chars c) with false; [reflexivity |].
  symmetry. apply not_true_iff_false. unfold is_in. rewrite existsb_exists.
  intros (x & Hx & Heq). apply Z.eqb_eq in Heq. subst x.
  exact (Hhead c rest eq_refl Hx).
Qed.

Lemma strip_kept (s chars : pystr) :
  (forall c rest, s = c :: rest -> ~ In c chars) ->
  (forall c rest, s = rest ++ [c] -> ~ In c chars) ->
  strip s chars = s.
Proof.
  intros Hhead Hlast. unfold strip. rewrite (lstrip_kept s) by exact Hhead.
  rewrite lstrip_kept; [apply rev_involutive |].
  intros c rest Hrev. apply (Hlast c (rev rest)).
  rewrite <- (rev_involutive s), Hrev. reflexivity.
Qed.

(** An entry named [/$bunfs/root/] followed by a path is written under
    that path with every [/] turned into [_], when [os.sep] is [/] and
    the path is not empty, holds no [$] and neither starts nor ends with
    [/]. *)
Theorem bundle_base_of_rooted_name :
  forall stem : pystr,
    stem <> [] -> ~ In 36 stem ->
    (forall rest, stem <> 47 :: rest) -> (forall rest, stem <> rest ++ [47]) ->
    bundle_base (str_of "/") (str_of "/$bunfs/root/" ++ stem)
    = map (fun c => if c =? 47 then 95 else c) stem.
Proof.
  intros stem Hne Hdollar Hhead Hlast. unfold bundle_base.
  rewrite str_replace_at_start by discriminate.
  change (str_of "/$bunfs/root/") with (47 :: 36 :: str_of "bunfs/root/").
  unfold str_replace at 3. rewrite replace_scan_absent by exact Hdollar.
  simpl app. rewrite strip_kept.
  - change (str_of "/") with [47]. change (str_of "_") with [95].
    rewrite !str_replace_single_map. rewrite map_map.
    assert (Hsame : map (fun x => if (if x =? 47 then 95 else x) =? 47
                                  then 95 else if x =? 47 then 95 else x) stem
                    = map (fun c => if c =? 47 then 95 else c) stem).
    { apply map_ext. intros x. destruct (Z.eqb_spec x 47); [reflexivity |].
      destruct (Z.eqb_spec x 47); [contradiction | reflexivity]. }
    rewrite Hsame. destruct stem; [contradiction | reflexivity].
  - intros c rest -> [<- | []]. exact (Hhead rest eq_refl).
  - intros c rest -> [<- | []]. exact (Hlast rest eq_refl).
Qed.

(** The entry [/$bunfs/root/src/index.js] is written as
    [src_index.js]. *)
Lemma bundle_base_of_rooted_name_witness :
  bundle_base (str_of "/") (str_of "/$bunfs/root/" ++ str_of "src/index.js")
  = str_of "src_index.js".
Proof.
  apply (bundle_base_of_rooted_name (str_of "src/index.js")).
  - discriminate.
  - vm_compute. intuition discriminate.
  - intros rest. discriminate.
  - intros rest Heq. apply (f_equal (@rev Z)) in Heq.
    rewrite rev_app_distr in Heq. discriminate Heq.
Defined.

(** ** The command line *)

Lemma parse_error_is_extraction_error (buf : bytes) (e : exn) :
  parse_error buf e -> exists msg, e = ExtractionError msg.
Proof.
  intros [Hfind | (graph & modules_raw & _ & Hend)].
  - unfold find_module_graph in Hfind.
    repeat match type of Hfind with
           | (if ?c then _ else _) = _ => destruct c
           end;
      first [discriminate Hfind | injection Hfind as <-; eexists; reflexivity].
  - destruct (iter_modules_outcome graph modules_raw)
      as (_ & _ & [(Hok & _) | [(Htable & _) | Hptr]]).
    + rewrite Hok in Hend. discriminate.
    + rewrite Htable in Hend. injection Hend as <-. eexists. reflexivity.
    + rewrite Hptr in Hend. injection Hend as <-. eexists. reflexivity.
Qed.

Lemma extract_raise_keeps_world {Path : Type} `{Countable Path}
    (joinpath : Path -> pystr -> Path) (with_parents : Path -> gset Path)
    (os_sep : pystr)
    (run_prettier : Path -> world Path -> result unit * world Path)
    (binary output : Path) (prettify : bool) (w w' : world Path) (msg : string) :
  extract joinpath with_parents os_sep run_prettier binary output prettify w
  = (Raise (ExtractionError msg), w') -> w' = w.
Proof.
  unfold extract. destruct (read_bytes binary w) as [buf | e0];
    [| intros [= _ <-]; reflexivity].
  destruct (find_module_graph buf) as [[graph modules_raw] | e1];
    [| intros [= _ <-]; reflexivity].
  destruct (collect_bundles (iter_modules graph modules_raw) [])
    as [[| bundle bundles] | e2]; try (intros [= _ <-]; reflexivity).
  intros Hwrite. exfalso.
  exact (write_bundles_no_extraction_error _ _ _ _ _ _ _ _ _ _ Hwrite).
Qed.

(** [main], from the parsed arguments on: without the executable it exits
    with status 2 and touches nothing.  Every failure of the parse makes
    it return 1 with the message on the error stream and the world as it
    was; whenever it returns 1 the world is as it was; it returns 0 only
    when [extract] returned; and no [ExtractionError] leaves it. *)
Theorem main_exit_status :
  forall {Path : Type} `{Countable Path}
         (joinpath : Path -> pystr -> Path) (with_parents : Path -> gset Path)
         (os_sep : pystr)
         (run_prettier_with :
            pystr -> Path -> world Path -> result unit * world Path)
         (args : arguments Path) (w : world Path),
    let run := main joinpath with_parents os_sep run_prettier_with args w in
    let extraction :=
      extract joinpath with_parents os_sep
        (run_prettier_with (arg_prettier_bin args))
        (arg_binary args) (arg_output args) (arg_prettier args) w in
    (files w !! arg_binary args = None -> run = (Exits 2, w, [ParserError])) /\
    (forall buf e,
        files w !! arg_binary args = Some buf -> parse_error buf e ->
        exists msg,
          e = ExtractionError msg /\
          run = (Returns 1, w, [ErrorLine (String.append "error: " msg)])) /\
    (forall w' lines, run = (Returns 1, w', lines) -> w' = w) /\
    (forall w' lines, run = (Returns 0, w', lines) ->
                      extraction = (Ok tt, w') /\ lines = []) /\
    (forall msg w' lines, run <> (Propagates (ExtractionError msg), w', lines)).
Proof.
  intros Path Heq Hcount joinpath with_parents os_sep run_prettier_with args w
         run extraction.
  unfold run, main. fold extraction.
  split; [intros ->; reflexivity |]. split; [| split; [| split]].
  - intros buf e Hread Hparse. rewrite Hread.
    destruct (parse_error_is_extraction_error buf e Hparse) as [msg ->].
    exists msg. split; [reflexivity |].
    assert (Hex : extraction = (Raise (ExtractionError msg), w)).
    { unfold extraction, extract, read_bytes. rewrite Hread.
      destruct Hparse as [-> | (graph & modules_raw & -> & Hend)]; [reflexivity |].
      rewrite (collect_bundles_raise _ _ _ Hend). reflexivity. }
    rewrite Hex. reflexivity.
  - intros w' lines. destruct (files w !! arg_binary args); [| discriminate].
    destruct extraction as [[u | e] w1] eqn:Hex; [discriminate |].
    destruct e; try discriminate. intros [= <- _].
    exact (extract_raise_keeps_world _ _ _ _ _ _ _ _ _ _ Hex).
  - intros w' lines. destruct (files w !! arg_binary args); [| discriminate].
    destruct extraction as [[u | e] w1] eqn:Hex.
    + intros [= <- <-]. destruct u. split; reflexivity.
    + destruct e; discriminate.
  - intros msg w' lines. destruct (files w !! arg_binary args); [| discriminate].
    destruct extraction as [[u | e] w1]; [discriminate |].
    destruct e; discriminate.
Qed.

(** On the file with a record out of range, [main] returns 1 and reports
    the pointer error. *)
Lemma main_exit_status_witness :
  main text_join only_itself (str_of "/") (fun _ => prettier_idle)
    (Namespace (str_of "bin") (str_of "out") true (str_of "prettier"))
    (world_with (str_of "bin") broken_file)
  = (Returns 1, world_with (str_of "bin") broken_file,
     [ErrorLine "error: Module graph pointer out of range"]).
Proof.
  destruct (main_exit_status text_join only_itself (str_of "/")
              (fun _ => prettier_idle)
              (Namespace (str_of "bin") (str_of "out") true (str_of "prettier"))
              (world_with (str_of "bin") broken_file)) as (_ & Hparse & _).
  destruct (Hparse broken_file PointerOutOfRange) as (msg & Hmsg & Hrun).
  - apply lookup_singleton_eq.
  - right. exists broken_graph, (pack_pointer (20, 72)).
    split; vm_compute; reflexivity.
  - injection Hmsg as <-. exact Hrun.
Defined.

(** ** The formatter *)



